(** * Music analysis pipeline: audio loading, waveform preview, key and chord
      estimation, and the Demucs model cache.

    Shallow embedding of the Python package [musicai_ml]
    ([utils/audio_io.py], [key_bpm_service.py], [chords_service.py],
    [demucs_service.py]).

    Conventions of the embedding:
    - Python [int] is [Z]; array extents are [nat]; [//] is [Z.div] (both
      round towards minus infinity).
    - NumPy float samples are exact rationals [Q]; the only irrational
      primitive of the source, the square root inside [np.linalg.norm], is a
      parameter of the development. Rounding is not modelled: sums, means
      and dot products are exact, so what is proved about them holds for the
      float code only where rounding cannot change the outcome.
    - Division by zero on [Q] yields [0], where NumPy yields [nan] or [inf];
      this only arises for the mean of an array without elements.
    - A call that can raise returns a [result]: [Ok v] or [Raise e].
    - The module-level dictionary [_MODEL_CACHE] and the model objects it
      points to are an explicit store threaded through the calls. *)

From Stdlib Require Import ZArith QArith Qabs List Sorted Bool Lia Lqa.
From stdpp Require Import gmap strings.
Import ListNotations.

Local Open Scope Z_scope.

(** ** Python exceptions and fallible calls *)

(** An exception is identified by its class name. [Exception c] stands for a
    class that derives from Python's [Exception] (what [except Exception]
    catches); [BaseException c] for one that does not, such as
    [KeyboardInterrupt]. *)
Inductive exn : Type :=
| Exception (cls : string)
| BaseException (cls : string).

Inductive result (A : Type) : Type :=
| Ok (a : A)
| Raise (e : exn).

Arguments Ok {A} a.
Arguments Raise {A} e.

#[export] Instance result_ret : MRet result := fun A a => Ok a.

#[export] Instance result_bind : MBind result := fun A B k r =>
  match r with
  | Ok a => k a
  | Raise e => Raise e
  end.

#[export] Instance result_fmap : FMap result := fun A B f r =>
  match r with
  | Ok a => Ok (f a)
  | Raise e => Raise e
  end.

(** [try: r except Exception: h] *)
Definition try_except_Exception {A : Type} (r : result A) (h : result A)
  : result A :=
  match r with
  | Ok a => Ok a
  | Raise (Exception _) => h
  | Raise (BaseException c) => Raise (BaseException c)
  end.

Definition ValueError : exn := Exception "ValueError".
Definition ZeroDivisionError : exn := Exception "ZeroDivisionError".

(** ** NumPy arrays *)

Module Numpy.

(** A two-dimensional float array: [rows] holds [shape0] rows of [shape1]
    numbers each. The second extent is stored because an array with zero rows
    still has one. *)
Record ndarray2 : Type := mk_ndarray2 {
  rows : list (list Q);
  shape1 : nat
}.

Definition shape0 (a : ndarray2) : nat := length (rows a).

Definition of_rows (rs : list (list Q)) : ndarray2 :=
  {| rows := rs;
     shape1 := match rs with [] => 0%nat | r :: _ => length r end |}.

(** A one-dimensional or a two-dimensional array, for calls whose result has
    either rank. *)
Inductive ndarray : Type :=
| Arr1 (v : list Q)
| Arr2 (a : ndarray2).

Definition Qsum (v : list Q) : Q := fold_right Qplus 0%Q v.

(** [v.mean()] of a one-dimensional array. *)
Definition mean (v : list Q) : Q :=
  (Qsum v / inject_Z (Z.of_nat (length v)))%Q.

(** [np.mean(a, axis=0, keepdims=True)]: one row, the average of the rows. *)
Definition column (a : ndarray2) (j : nat) : list Q :=
  map (fun row => nth j row 0%Q) (rows a).

Definition mean_axis0_keepdims (a : ndarray2) : ndarray2 :=
  {| rows := [map (fun j => mean (column a j)) (seq 0 (shape1 a))];
     shape1 := shape1 a |}.

(** [a.mean(axis=1)]: the average of every row. *)
Definition mean_axis1 (a : ndarray2) : list Q := map mean (rows a).

(** [a.T] *)
Definition transpose (a : ndarray2) : ndarray2 :=
  {| rows := map (column a) (seq 0 (shape1 a));
     shape1 := shape0 a |}.

(** [v[np.newaxis, :]] *)
Definition newaxis (v : list Q) : ndarray2 :=
  {| rows := [v]; shape1 := length v |}.

(** [np.stack(vs, axis=0)]: NumPy raises [ValueError] on an empty list and
    when the arrays differ in length. *)
Definition stack (vs : list (list Q)) : result ndarray2 :=
  match vs with
  | [] => Raise ValueError
  | v :: rest =>
      if forallb (fun v' => Nat.eqb (length v') (length v)) rest
      then Ok {| rows := vs; shape1 := length v |}
      else Raise ValueError
  end.

(** [np.roll(v, k)] for [0 <= k]: element [j] moves to [(j + k) mod n]. *)
Definition roll (v : list Q) (k : nat) : list Q :=
  let n := length v in
  match n with
  | O => v
  | _ => let s := (k mod n)%nat in skipn (n - s) v ++ firstn (n - s) v
  end.

Fixpoint dot_aux (u v : list Q) : Q :=
  match u, v with
  | x :: u', y :: v' => (x * y + dot_aux u' v')%Q
  | _, _ => 0%Q
  end.

(** [np.dot(u, v)] of two one-dimensional arrays; NumPy raises [ValueError]
    when the lengths differ. *)
Definition dot (u v : list Q) : result Q :=
  if Nat.eqb (length u) (length v) then Ok (dot_aux u v) else Raise ValueError.

(** [a[:, :stop]] for [0 <= stop]. *)
Definition slice_cols (a : ndarray2) (stop : nat) : ndarray2 :=
  {| rows := map (firstn stop) (rows a);
     shape1 := Nat.min stop (shape1 a) |}.

(** The rows of [v.reshape(n, k)]: [n] consecutive chunks of [k] elements. *)
Fixpoint chunks (k n : nat) (v : list Q) : list (list Q) :=
  match n with
  | O => []
  | S n' => firstn k v :: chunks k n' (skipn k v)
  end.

(** All entries are non-negative. *)
Definition nonneg (v : list Q) : Prop := Forall (fun x => (0 <= x)%Q) v.

(** Every row has [shape1] entries. *)
Definition wf_ndarray2 (a : ndarray2) : Prop :=
  Forall (fun row => length row = shape1 a) (rows a).

(** All entries lie between [lo] and [hi]. *)
Definition within (lo hi : Q) (v : list Q) : Prop :=
  Forall (fun x => (lo <= x <= hi)%Q) v.

(** All elements, row by row. *)
Definition flatten (a : ndarray2) : list Q := concat (rows a).

Definition Qmax2 (a b : Q) : Q := if Qle_bool a b then b else a.

(** [np.max(v)] over all elements; NumPy raises [ValueError] for an array
    without elements. *)
Definition np_max (v : list Q) : result Q :=
  match v with
  | [] => Raise ValueError
  | x :: rest => Ok (fold_left Qmax2 rest x)
  end.

(** [np.abs(a)] and [a / d] for a scalar [d], element by element. *)
Definition np_abs (a : ndarray2) : ndarray2 :=
  {| rows := map (map Qabs) (rows a); shape1 := shape1 a |}.

Definition array_div (a : ndarray2) (d : Q) : ndarray2 :=
  {| rows := map (map (fun x => (x / d)%Q)) (rows a); shape1 := shape1 a |}.

End Numpy.

(** ** [utils/audio_io.py] *)

Module AudioIO.
Import Numpy.

(** [waveform_preview(audio, max_points)].

    [samples // max_points] raises [ZeroDivisionError] when [max_points] is
    [0]; a negative [max_points] with a non-empty buffer makes both reshape
    extents negative, which NumPy rejects with [ValueError]. *)
Definition waveform_preview (audio : ndarray2) (max_points : Z)
  : result ndarray2 :=
  let samples := Z.of_nat (shape1 audio) in
  if samples <=? max_points then Ok audio
  else if max_points =? 0 then Raise ZeroDivisionError
  else
    let chunk_size := samples / max_points in
    let chunk_size := if chunk_size =? 0 then 1 else chunk_size in
    let actual_points := samples / chunk_size in
    if (chunk_size <? 0) || (actual_points <? 0) then Raise ValueError
    else
      let cs := Z.to_nat chunk_size in
      let ap := Z.to_nat actual_points in
      let trimmed := slice_cols audio (ap * cs) in
      let reshaped := map (chunks cs ap) (rows trimmed) in
      let preview := map (map mean) reshaped in
      Ok {| rows := preview; shape1 := ap |}.

(** The [points] field reported by [generate_waveform_preview] is
    [preview.shape[1]]. *)
Definition points (preview : ndarray2) : nat := shape1 preview.

(** The decoders and the resampler are library calls on the file system; they
    are the parameters of [load_audio].
    - [sf_read path] is [sf.read(str(path), always_2d=True)]: a
      (frames, channels) array and the file's sample rate;
    - [librosa_load path] is [librosa.load(str(path), sr=None, mono=False)]:
      a one-dimensional array for a mono file, else (channels, samples);
    - [librosa_resample ch orig_sr target_sr] is
      [librosa.resample(y=ch, orig_sr=orig_sr, target_sr=target_sr)]. *)
Section load_audio.

Variable sf_read : string -> result (ndarray2 * Z).
Variable librosa_load : string -> result (ndarray * Z).
Variable librosa_resample : list Q -> Z -> Z -> result (list Q).

(** The [try] / [except Exception] block of [load_audio]: the decoded
    channel-first array and the file's own sample rate. [astype(np.float32)]
    is the identity on exact samples. *)
Definition load_audio_decode (path : string) : result (ndarray2 * Z) :=
  try_except_Exception
    ('(audio, sr) ← sf_read path;
     mret (transpose audio, sr))
    ('(y, sr) ← librosa_load path;
     match y with
     | Arr1 v => mret (newaxis v, sr)
     | Arr2 a => mret (a, sr)
     end).

(** [load_audio(path, target_sr, mono)] *)
Definition load_audio (path : string) (target_sr : Z) (mono : bool)
  : result (ndarray2 * Z) :=
  '(audio, sr) ← load_audio_decode path;
  let audio :=
    if mono && (1 <? shape0 audio)%nat
    then mean_axis0_keepdims audio else audio in
  if negb (sr =? target_sr) then
    resampled ← mapM (fun ch => librosa_resample ch sr target_sr) (rows audio);
    audio ← stack resampled;
    mret (audio, target_sr)
  else mret (audio, sr).

End load_audio.

Section get_duration_seconds.

(** [sf_info path] is [sf.info(str(path))]: the pair
    [(info.frames, info.samplerate)]. *)
Variable sf_info : string -> result (Z * Z).

(** [get_duration_seconds(path)] *)
Definition get_duration_seconds (path : string) : result Q :=
  '(frames, samplerate) ← sf_info path;
  if samplerate <=? 0 then mret 0%Q
  else mret (inject_Z frames / inject_Z samplerate)%Q.

End get_duration_seconds.

(** The error class the interface contract names for a file that no decoder
    can read. *)
Definition DecodeError : exn := Exception "DecodeError".

Definition raises {A : Type} (r : result A) : Prop :=
  match r with Raise _ => True | Ok _ => False end.

End AudioIO.

(** Concrete buffers and decoders used to run [audio_io.py]. *)
Module AudioIOExamples.
Import Numpy AudioIO.

(** One channel of seven samples. *)
Definition seven_samples : ndarray2 :=
  of_rows [[1; 2; 3; 4; 5; 6; 7]%Q].

(** A file libsndfile does not recognise and for which audioread finds no
    backend either. *)
Definition sf_read_unsupported (path : string) : result (ndarray2 * Z) :=
  Raise (Exception "LibsndfileError").

Definition librosa_load_no_backend (path : string) : result (ndarray * Z) :=
  Raise (Exception "NoBackendError").

(** A stereo file of three frames at 22050 Hz, read by libsndfile. *)
Definition sf_read_stereo (path : string) : result (ndarray2 * Z) :=
  Ok (of_rows [[1; -1]; [2; -2]; [3; -3]]%Q, 22050).

(** A mono M4A file only the fallback decoder reads. *)
Definition librosa_load_mono (path : string) : result (ndarray * Z) :=
  Ok (Arr1 [1; 2; 3]%Q, 22050).

(** A resampler by sample repetition, exact when the rate doubles. *)
Definition resample_repeat (ch : list Q) (orig_sr target_sr : Z)
  : result (list Q) :=
  if 0 <? orig_sr
  then Ok (flat_map (fun x => repeat x (Z.to_nat (target_sr / orig_sr))) ch)
  else Raise (Exception "ParameterError").

End AudioIOExamples.

(** ** Template scans shared by key and chord estimation *)

Module Scan.

(** [a > b] on floats. *)
Definition Qgtb (a b : Q) : bool := negb (Qle_bool a b).

(** One step of a "keep the first strictly greater" scan. *)
Definition keep_greater {A : Type} (key : A -> Q) (best item : A) : A :=
  if Qgtb (key item) (key best) then item else best.

(** Python's [max(items, key=key)]: the first item is the initial maximum and
    a later item replaces it only when its key is strictly greater; an empty
    sequence raises [ValueError]. *)
Definition py_max {A : Type} (key : A -> Q) (items : list A) : result A :=
  match items with
  | [] => Raise ValueError
  | first :: rest => Ok (fold_left (keep_greater key) rest first)
  end.

(** Python's [max(a, b)] and [min(a, b)] on two floats: the first argument is
    kept unless the second is strictly greater (smaller). *)
Definition py_max2 (a b : Q) : Q := if Qgtb b a then b else a.
Definition py_min2 (a b : Q) : Q := if Qgtb a b then b else a.

(** [cur], found at position [k] of [seen], is the first maximum of [seen]:
    no element has a greater key and every element before position [k] has a
    strictly smaller one. *)
Definition first_maximum {A : Type} (key : A -> Q) (seen : list A)
  (k : nat) (cur : A) : Prop :=
  seen !! k = Some cur /\
  (forall j c, seen !! j = Some c -> (key c <= key cur)%Q) /\
  (forall j c, seen !! j = Some c -> (j < k)%nat -> (key c < key cur)%Q).

End Scan.

(** ** [key_bpm_service.py] *)

Module KeyBpm.
Import Numpy Scan.

Definition _KRUMHANSL_MAJOR : list Q :=
  [6.35; 2.23; 3.48; 2.33; 4.38; 4.09; 2.52; 5.19; 2.39; 3.66; 2.29; 2.88]%Q.
Definition _KRUMHANSL_MINOR : list Q :=
  [6.33; 2.68; 3.52; 5.38; 2.60; 3.53; 2.54; 4.75; 3.98; 2.69; 3.34; 3.17]%Q.
Definition _KEY_NAMES : list string :=
  ["C"; "C#"; "D"; "D#"; "E"; "F"; "F#"; "G"; "G#"; "A"; "A#"; "B"]%string.

Inductive mode : Type := major | minor.

Definition mode_name (m : mode) : string :=
  match m with major => "major" | minor => "minor" end.

(** An entry of the list [scores]: [(mode, tonic, score)]. *)
Definition candidate : Type := mode * nat * Q.
Definition score (c : candidate) : Q := snd c.

Record key_estimate : Type := mk_key_estimate {
  key : string;
  confidence : Q
}.

(** [v / d] of a vector by a scalar. *)
Definition vdiv (v : list Q) (d : Q) : list Q := map (fun x => (x / d)%Q) v.

Section estimate_key.

(** The floating-point square root. *)
Variable sqrt : Q -> Q.

(** [np.linalg.norm(v)] *)
Definition norm (v : list Q) : Q := sqrt (Qsum (map (fun x => (x * x)%Q) v)).

(** The loop of [_estimate_key] that fills [scores]. *)
Definition key_scores (chroma : ndarray2) : result (list candidate) :=
  let profile_major := vdiv _KRUMHANSL_MAJOR (norm _KRUMHANSL_MAJOR) in
  let profile_minor := vdiv _KRUMHANSL_MINOR (norm _KRUMHANSL_MINOR) in
  let chroma_mean := mean_axis1 chroma in
  let chroma_norm := vdiv chroma_mean (norm chroma_mean + 1e-9)%Q in
  scores ← mapM (fun i =>
      major_score ← dot chroma_norm (roll profile_major i);
      minor_score ← dot chroma_norm (roll profile_minor i);
      mret [(major, i, major_score); (minor, i, minor_score)])
    (seq 0 12);
  mret (concat scores).

(** [max(scores, key=lambda x: x[2])] *)
Definition best_key (chroma : ndarray2) : result candidate :=
  scores ← key_scores chroma;
  py_max score scores.

Definition key_confidence (best : Q) : Q :=
  py_max2 0 (py_min2 1 ((best + 1) / 2))%Q.

Definition key_label (m : mode) (tonic : nat) : result string :=
  match _KEY_NAMES !! tonic with
  | Some name => Ok (name +:+ " " +:+ mode_name m)
  | None => Raise (Exception "IndexError")
  end.

(** [_estimate_key(chroma)] *)
Definition _estimate_key (chroma : ndarray2) : result key_estimate :=
  '(m, tonic, best) ← best_key chroma;
  let conf := key_confidence best in
  label ← key_label m tonic;
  mret {| key := label; confidence := conf |}.

(** The two entries the loop appends for tonic [i] when both dot products
    are defined. *)
Definition rotation_scores (chroma : ndarray2) (i : nat) : list candidate :=
  let profile_major := vdiv _KRUMHANSL_MAJOR (norm _KRUMHANSL_MAJOR) in
  let profile_minor := vdiv _KRUMHANSL_MINOR (norm _KRUMHANSL_MINOR) in
  let chroma_mean := mean_axis1 chroma in
  let chroma_norm := vdiv chroma_mean (norm chroma_mean + 1e-9)%Q in
  [(major, i, dot_aux chroma_norm (roll profile_major i));
   (minor, i, dot_aux chroma_norm (roll profile_minor i))].

End estimate_key.

(** The 24 (mode, tonic) pairs in the order the loop appends them. *)
Definition canonical_order : list (mode * nat) :=
  flat_map (fun i => [(major, i); (minor, i)]) (seq 0 12).

(** The 24 strings ["<tonic> <mode>"]. *)
Definition all_key_labels : list string :=
  flat_map (fun name => [name +:+ " major"; name +:+ " minor"]) _KEY_NAMES.

End KeyBpm.

(** [analyze_key_and_tempo] of [key_bpm_service.py]. *)
Module KeyTempo.
Import Numpy.

Record key_tempo : Type := mk_key_tempo {
  tempo_bpm : Q;
  beat_times : list Q;
  key : string;
  key_confidence : Q
}.

(** The hop length librosa uses when none is given. *)
Definition default_hop_length : Z := 512.

(** [librosa.frames_to_time(frame, sr=sr)] *)
Definition frames_to_time (sr : Z) (frame : Z) : Q :=
  (inject_Z (frame * default_hop_length) / inject_Z sr)%Q.

Section analyze_key_and_tempo.

(** [load] is [load_audio]; [beat_track y sr] is
    [librosa.beat.beat_track(y=y, sr=sr, units="frames")], the tempo and the
    beat frames; [chroma_cqt y sr hop] is
    [librosa.feature.chroma_cqt(y=y, sr=sr, hop_length=hop)]. *)
Variable sqrt : Q -> Q.
Variable load : string -> Z -> bool -> result (ndarray2 * Z).
Variable beat_track : list Q -> Z -> result (Q * list Z).
Variable chroma_cqt : list Q -> Z -> Z -> result ndarray2.

(** [analyze_key_and_tempo(audio_path, target_sr)] *)
Definition analyze_key_and_tempo (audio_path : string) (target_sr : Z)
  : result key_tempo :=
  '(audio, sr) ← load audio_path target_sr true;
  mono ← match rows audio with
         | ch :: _ => Ok ch
         | [] => Raise (Exception "IndexError")
         end;
  '(tempo, beat_frames) ← beat_track mono sr;
  let beat_times := map (frames_to_time sr) beat_frames in
  chroma ← chroma_cqt mono sr default_hop_length;
  key_info ← KeyBpm._estimate_key sqrt chroma;
  mret {| tempo_bpm := tempo;
          beat_times := beat_times;
          key := KeyBpm.key key_info;
          key_confidence := KeyBpm.confidence key_info |}.

End analyze_key_and_tempo.

End KeyTempo.

(** ** [chords_service.py] *)

Module Chords.
Import Numpy Scan.

Definition chord_names : list string :=
  ["C"; "C#"; "D"; "D#"; "E"; "F"; "F#"; "G"; "G#"; "A"; "A#"; "B"]%string.
Definition major_template : list Q := [1; 0; 0; 0; 1; 0; 0; 1; 0; 0; 0; 0]%Q.
Definition minor_template : list Q := [1; 0; 0; 1; 0; 0; 0; 1; 0; 0; 0; 0]%Q.

Definition hop_length : Z := 2048.

Record segment : Type := mk_segment {
  time : Q;
  chord : string;
  confidence : Q
}.

(** [chord_names[root]]; [root] ranges over [range(12)], always in range. *)
Definition chord_name (root : nat) : string := nth root chord_names ""%string.

(** The body of [for root in range(12)] on the pair
    [(best_chord, best_score)]. *)
Definition root_step (frame_chroma : list Q) (best : string * Q) (root : nat)
  : result (string * Q) :=
  maj_score ← dot frame_chroma (roll major_template root);
  min_score ← dot frame_chroma (roll minor_template root);
  let best :=
    if Qgtb maj_score (snd best) then (chord_name root, maj_score)
    else best in
  let best :=
    if Qgtb min_score (snd best) then (chord_name root +:+ "m", min_score)
    else best in
  mret best.

(** A [for] loop whose body can raise. *)
Fixpoint for_each {S A : Type} (body : S -> A -> result S)
  (items : list A) (st : S) : result S :=
  match items with
  | [] => Ok st
  | x :: rest => st' ← body st x; for_each body rest st'
  end.

(** [librosa.frames_to_time(i, sr=sr, hop_length=hop_length)] *)
Definition frame_time (sr : Z) (i : nat) : Q :=
  (inject_Z (Z.of_nat i * hop_length) / inject_Z sr)%Q.

(** The body of [for i, frame_chroma in enumerate(chroma.T)]. *)
Definition frame_segment (sr : Z) (i : nat) (frame_chroma : list Q)
  : result segment :=
  '(best_chord, best_score) ←
    for_each (root_step frame_chroma) (seq 0 12) ("N"%string, 0%Q);
  mret {| time := frame_time sr i;
          chord := best_chord;
          confidence := py_min2 1 (best_score / 3) |}.

Definition frame_segments (sr : Z) (chroma : ndarray2) : result (list segment) :=
  mapM (fun '(i, frame_chroma) => frame_segment sr i frame_chroma)
       (imap (fun i frame_chroma => (i, frame_chroma)) (rows (transpose chroma))).

(** The merge loop: a segment is skipped when [merged] is non-empty and its
    last element carries the same chord. *)
Definition merge_step (merged : list segment) (seg : segment) : list segment :=
  match last merged with
  | Some prev =>
      if String.eqb (chord prev) (chord seg) then merged else merged ++ [seg]
  | None => merged ++ [seg]
  end.

Definition merge_segments (segments : list segment) : list segment :=
  fold_left merge_step segments [].

(** [detect_chords] after feature extraction. *)
Definition detect_chords_from_chroma (sr : Z) (chroma : ndarray2)
  : result (list segment) :=
  segments ← frame_segments sr chroma;
  mret (merge_segments segments).

(** The dictionary [compute_chromagram] returns. *)
Record chromagram : Type := mk_chromagram {
  chroma : list (list Q);
  frame_times : list Q;
  sample_rate : Z;
  chromagram_hop_length : Z
}.

Section compute_chromagram.

Variable load : string -> Z -> bool -> result (ndarray2 * Z).
Variable chroma_cqt : list Q -> Z -> Z -> result ndarray2.

(** [compute_chromagram(audio_path, target_sr)];
    [np.arange(chroma.shape[1])] is [seq 0 (shape1 chroma)]. *)
Definition compute_chromagram (audio_path : string) (target_sr : Z)
  : result chromagram :=
  '(audio, sr) ← load audio_path target_sr true;
  mono ← match rows audio with
         | ch :: _ => Ok ch
         | [] => Raise (Exception "IndexError")
         end;
  c ← chroma_cqt mono sr hop_length;
  let times := map (frame_time sr) (seq 0 (shape1 c)) in
  mret {| chroma := rows c;
          frame_times := times;
          sample_rate := sr;
          chromagram_hop_length := hop_length |}.

End compute_chromagram.

Section detect_chords.

(** [load path target_sr mono] is [load_audio]; [chroma_cqt y sr hop] is
    [librosa.feature.chroma_cqt(y=y, sr=sr, hop_length=hop)]. *)
Variable load : string -> Z -> bool -> result (ndarray2 * Z).
Variable chroma_cqt : list Q -> Z -> Z -> result ndarray2.

(** [detect_chords(audio_path, target_sr)]; the result is the list under the
    key ["chords"]. *)
Definition detect_chords (audio_path : string) (target_sr : Z)
  : result (list segment) :=
  '(audio, sr) ← load audio_path target_sr true;
  mono ← match rows audio with
         | ch :: _ => Ok ch
         | [] => Raise (Exception "IndexError")
         end;
  chroma ← chroma_cqt mono sr hop_length;
  detect_chords_from_chroma sr chroma.

End detect_chords.

(** The 24 labelled scores of a frame in the order the loop compares them:
    roots ascending, major before minor, when all dot products are defined. *)
Definition frame_candidates (frame_chroma : list Q) (root : nat)
  : list (string * Q) :=
  [(chord_name root, dot_aux frame_chroma (roll major_template root));
   (chord_name root +:+ "m", dot_aux frame_chroma (roll minor_template root))].

Definition all_candidates (frame_chroma : list Q) : list (string * Q) :=
  flat_map (frame_candidates frame_chroma) (seq 0 12).

Definition scan_order : list string :=
  ["C"; "Cm"; "C#"; "C#m"; "D"; "Dm"; "D#"; "D#m"; "E"; "Em"; "F"; "Fm";
   "F#"; "F#m"; "G"; "Gm"; "G#"; "G#m"; "A"; "Am"; "A#"; "A#m"; "B"; "Bm"
  ]%string.

(** The first frame of every maximal run of equal chord labels: a frame is
    kept when it is the first one or its label differs from the label of the
    frame just before it. *)
Fixpoint run_starts_after (prev : string) (segments : list segment)
  : list segment :=
  match segments with
  | [] => []
  | seg :: rest =>
      if String.eqb prev (chord seg)
      then run_starts_after (chord seg) rest
      else seg :: run_starts_after (chord seg) rest
  end.

Definition run_starts (segments : list segment) : list segment :=
  match segments with
  | [] => []
  | seg :: rest => seg :: run_starts_after (chord seg) rest
  end.

(** No two neighbours of the list carry the same chord label. *)
Fixpoint no_adjacent_repeat (segments : list segment) : Prop :=
  match segments with
  | [] => True
  | seg :: rest =>
      match rest with
      | [] => True
      | next :: _ => chord seg <> chord next
      end /\ no_adjacent_repeat rest
  end.

(** [a] is timed strictly before [b]. *)
Definition earlier (a b : segment) : Prop := (time a < time b)%Q.

End Chords.

(** ** [demucs_service.py] *)

Module Demucs.
Import Numpy.

(** A loaded Demucs model object: the attributes the service reads
    ([samplerate], [sources]) and the two it mutates through [model.to] and
    [model.eval]. *)
Record model_object : Type := mk_model_object {
  device : string;
  training : bool;
  samplerate : Z;
  sources : list string
}.

Definition with_device (d : string) (m : model_object) : model_object :=
  {| device := d; training := training m;
     samplerate := samplerate m; sources := sources m |}.

Definition with_eval (m : model_object) : model_object :=
  {| device := device m; training := false;
     samplerate := samplerate m; sources := sources m |}.

(** The process state the service touches: the object store (a reference is
    an index into [objects]), the module-level dictionary [_MODEL_CACHE] from
    model name to reference, and the log of calls made to the model-loading
    step [get_model]. *)
Record world : Type := mk_world {
  objects : list model_object;
  _MODEL_CACHE : gmap string nat;
  get_model_calls : list string
}.

Definition initial_world : world :=
  {| objects := []; _MODEL_CACHE := ∅; get_model_calls := [] |}.

(** A call that reads and writes the process state and can raise; the state
    survives a raise. *)
Definition io (A : Type) : Type := world -> result A * world.

#[export] Instance io_ret : MRet io := fun A a w => (Ok a, w).

#[export] Instance io_bind : MBind io := fun A B k m w =>
  match m w with
  | (Ok a, w') => k a w'
  | (Raise e, w') => (Raise e, w')
  end.

Definition lift {A : Type} (r : result A) : io A := fun w => (r, w).

(** [w'] has the cache, the load log and the number of objects of [w]. *)
Definition same_registry (w w' : world) : Prop :=
  _MODEL_CACHE w' = _MODEL_CACHE w /\
  get_model_calls w' = get_model_calls w /\
  length (objects w') = length (objects w).

Definition keeps_registry {A : Type} (m : io A) : Prop :=
  forall w, same_registry w (snd (m w)).

Definition keeps_world {A : Type} (m : io A) : Prop :=
  forall w, snd (m w) = w.

(** Every cached reference points into the object store, and no two model
    names share a reference. *)
Definition registry_ok (w : world) : Prop :=
  forall name ref,
    _MODEL_CACHE w !! name = Some ref ->
    (ref < length (objects w))%nat /\
    forall name', _MODEL_CACHE w !! name' = Some ref -> name' = name.

(** The file a stem is written to. *)
Definition stem_path (output_dir name : string) : string :=
  output_dir +:+ "/" +:+ name +:+ ".wav".

Section separate_stems.

(** Library and file-system calls.
    - [get_model name] is [demucs.pretrained.get_model(name)]: a fresh model
      object, or an error when the weights cannot be obtained;
    - [to_device m d] is the device transfer inside [model.to(d)], which can
      fail (for instance ["cuda"] on a host without an accelerator);
    - [mkdir], [load], [apply_model], [sf_write] are the directory creation,
      [load_audio], the Demucs forward pass and [sf.write]. *)
Variable get_model : string -> result model_object.
Variable to_device : model_object -> string -> result unit.
Variable mkdir : string -> result unit.
Variable load : string -> Z -> bool -> result (ndarray2 * Z).
Variable apply_model : model_object -> ndarray2 -> string -> result (list ndarray2).
Variable sf_write : string -> ndarray2 -> Z -> result unit.

(** [get_model(model_name)], instrumented: every call is logged, and a
    successful one allocates a new object. *)
Definition load_model (model_name : string) : io nat := fun w =>
  let logged := get_model_calls w ++ [model_name] in
  match get_model model_name with
  | Ok m =>
      (Ok (length (objects w)),
       {| objects := objects w ++ [m];
          _MODEL_CACHE := _MODEL_CACHE w;
          get_model_calls := logged |})
  | Raise e =>
      (Raise e,
       {| objects := objects w;
          _MODEL_CACHE := _MODEL_CACHE w;
          get_model_calls := logged |})
  end.

(** [_get_demucs_model(model_name)] *)
Definition _get_demucs_model (model_name : string) : io nat := fun w =>
  match _MODEL_CACHE w !! model_name with
  | None =>
      match load_model model_name w with
      | (Ok ref, w') =>
          (Ok ref,
           {| objects := objects w';
              _MODEL_CACHE := <[model_name := ref]> (_MODEL_CACHE w');
              get_model_calls := get_model_calls w' |})
      | (Raise e, w') => (Raise e, w')
      end
  | Some ref => (Ok ref, w)
  end.

(** Attribute access through a reference. References are only ever taken
    from the cache, so the failure branch is not reached from
    [separate_stems]. *)
Definition deref (ref : nat) : io model_object := fun w =>
  match objects w !! ref with
  | Some m => (Ok m, w)
  | None => (Raise (Exception "ReferenceError"), w)
  end.

Definition update (ref : nat) (f : model_object -> model_object) : io unit :=
  fun w =>
    (Ok tt,
     {| objects := alter f ref (objects w);
        _MODEL_CACHE := _MODEL_CACHE w;
        get_model_calls := get_model_calls w |}).

(** [model.to(device)]: in place, on the object behind the reference. *)
Definition model_to (ref : nat) (d : string) : io unit :=
  m ← deref ref;
  _ ← lift (to_device m d);
  update ref (with_device d).

(** [model.eval()] *)
Definition model_eval (ref : nat) : io unit := update ref with_eval.

(** The loop that writes one WAV file per stem and fills [stem_paths]. *)
Fixpoint write_stems (output_dir : string) (rate : Z) (stems : list ndarray2)
  (names : list (nat * string)) (stem_paths : gmap string string)
  : result (gmap string string) :=
  match names with
  | [] => Ok stem_paths
  | (i, name) :: rest =>
      match stems !! i with
      | None => Raise (Exception "IndexError")
      | Some stem_audio =>
          let out_path := output_dir +:+ "/" +:+ name +:+ ".wav" in
          _ ← sf_write out_path (transpose stem_audio) rate;
          write_stems output_dir rate stems rest (<[name := out_path]> stem_paths)
      end
  end.

(** [separate_stems(audio_path, output_dir, model_name, device)] *)
Definition separate_stems
  (audio_path output_dir model_name device : string)
  : io (gmap string string) :=
  _ ← lift (mkdir output_dir);
  model ← _get_demucs_model model_name;
  _ ← model_to model device;
  _ ← model_eval model;
  m ← deref model;
  '(audio, sr) ← lift (load audio_path (samplerate m) false);
  stems ← lift (apply_model m audio device);
  lift (write_stems output_dir (samplerate m) stems
          (imap (fun i name => (i, name)) (sources m)) ∅).

End separate_stems.

End Demucs.

(** A host on which every library call succeeds. *)
Module DemucsExamples.
Import Numpy Demucs.

Definition htdemucs : model_object :=
  {| device := "cpu"; training := true; samplerate := 44100;
     sources := ["drums"; "bass"; "other"; "vocals"]%string |}.

Definition get_model (name : string) : result model_object := Ok htdemucs.
Definition to_device (m : model_object) (d : string) : result unit := Ok tt.
Definition mkdir (dir : string) : result unit := Ok tt.
Definition load (path : string) (sr : Z) (mono : bool)
  : result (ndarray2 * Z) :=
  Ok (of_rows [[1; 2]; [3; 4]]%Q, sr).
Definition apply_model (m : model_object) (audio : ndarray2) (d : string)
  : result (list ndarray2) :=
  Ok (map (fun _ => audio) (sources m)).
Definition sf_write (path : string) (a : ndarray2) (rate : Z) : result unit :=
  Ok tt.

Definition separate (audio_path output_dir model_name device : string)
  : io (gmap string string) :=
  separate_stems get_model to_device mkdir load apply_model sf_write
    audio_path output_dir model_name device.

(** Two requests in a row for the same model name, first on the CPU and then
    on the accelerator. *)
Definition after_cpu : world :=
  snd (separate "song.wav" "out" "htdemucs" "cpu" initial_world).
Definition after_cuda : world :=
  snd (separate "song.wav" "out" "htdemucs" "cuda" after_cpu).

(** A host without network access and without downloaded weights. *)
Definition get_model_offline (name : string) : result model_object :=
  Raise (Exception "RuntimeError").

Definition separate_offline (audio_path output_dir model_name device : string)
  : io (gmap string string) :=
  separate_stems get_model_offline to_device mkdir load apply_model sf_write
    audio_path output_dir model_name device.

End DemucsExamples.

(** Concrete chromagrams and a computable square root. *)
Module AnalysisExamples.
Import Numpy.

(** Square root rounded down to nine decimals. *)
Definition sqrt_9 (x : Q) : Q :=
  Z.sqrt (Qnum x * 10 ^ 18 / Zpos (Qden x)) # 10 ^ 9.

(** Two frames of a C major triad: energy on C, E and G only. *)
Definition c_major_chroma : ndarray2 :=
  of_rows [[1; 1]; [0; 0]; [0; 0]; [0; 0]; [1; 1]; [0; 0];
           [0; 0]; [1; 1]; [0; 0]; [0; 0]; [0; 0]; [0; 0]]%Q.

(** Two frames of silence. *)
Definition silent_chroma : ndarray2 :=
  of_rows (repeat [0; 0]%Q 12).

(** Frames C major, C major, silence, A minor, A minor. *)
Definition progression_chroma : ndarray2 :=
  of_rows [[1; 1; 0; 1; 1]; [0; 0; 0; 0; 0]; [0; 0; 0; 0; 0];
           [0; 0; 0; 0; 0]; [1; 1; 0; 1; 1]; [0; 0; 0; 0; 0];
           [0; 0; 0; 0; 0]; [1; 1; 0; 0; 0]; [0; 0; 0; 0; 0];
           [0; 0; 0; 1; 1]; [0; 0; 0; 0; 0]; [0; 0; 0; 0; 0]]%Q.

Definition load_mono (path : string) (sr : Z) (mono : bool)
  : result (ndarray2 * Z) :=
  Ok (of_rows [[0; 0; 0; 0]]%Q, sr).

Definition chroma_cqt_progression (y : list Q) (sr hop : Z) : result ndarray2 :=
  Ok progression_chroma.

Definition chroma_cqt_c_major (y : list Q) (sr hop : Z) : result ndarray2 :=
  Ok c_major_chroma.

(** A steady 120 beats per minute. *)
Definition beat_track_steady (y : list Q) (sr : Z) : result (Q * list Z) :=
  Ok (120%Q, [0; 43; 86]).

End AnalysisExamples.

(** ** [waveform_service.py] *)

Module WaveformService.
Import Numpy AudioIO.

Record waveform_result : Type := mk_waveform_result {
  sample_rate : Z;
  channels : nat;
  points : nat;
  waveform : list (list Q)
}.

(** [x or 1.0] on a float: [0.0] is the only falsy float. *)
Definition or_one (x : Q) : Q := if Qeq_bool x 0 then 1%Q else x.

Section generate_waveform_preview.

Variable sf_read : string -> result (ndarray2 * Z).
Variable librosa_load : string -> result (ndarray * Z).
Variable librosa_resample : list Q -> Z -> Z -> result (list Q).

(** [generate_waveform_preview(audio_path, target_sr, max_points)] *)
Definition generate_waveform_preview
  (audio_path : string) (target_sr : Z) (max_points : Z)
  : result waveform_result :=
  '(audio, sr) ← load_audio sf_read librosa_load librosa_resample
                   audio_path target_sr false;
  m ← np_max (flatten (np_abs audio));
  let max_abs := or_one m in
  let audio := array_div audio max_abs in
  preview ← waveform_preview audio max_points;
  mret {| sample_rate := sr;
          channels := shape0 preview;
          points := shape1 preview;
          waveform := rows preview |}.

End generate_waveform_preview.

End WaveformService.

(** ** [app/api/v1/audio.py]: the upload endpoint *)

Module Upload.

Definition ALLOWED_EXTENSIONS : list string := [".mp3"; ".wav"; ".m4a"]%string.
Definition MAX_FILE_SIZE_MB : Z := 100.

(** The exceptions of the endpoint, all subclasses of [Exception]: FastAPI's
    [HTTPException] with its status code, [FileNotFoundError], and any other
    class by name. Detail strings are not modelled. *)
Inductive exc : Type :=
| HTTPException (status_code : Z)
| FileNotFoundError
| OtherException (cls : string).

Inductive outcome (R : Type) : Type :=
| Return (r : R)
| Raised (e : exc).

Arguments Return {R} r.
Arguments Raised {R} e.

(** What the endpoint does to the session: bytes written to the uploaded
    file, the analysis run, the session cleaned up. *)
Inductive event : Type :=
| Write (size : Z)
| Process
| Cleanup (session_id : string).

Section upload_and_process.

(** The response model, and the calls the endpoint makes:
    - [suffix_lower name] is [Path(name or "").suffix.lower()];
    - [session_id] is the value [new_session_id()] returns for this request;
    - [session_dir id], [cleanup_session id] are the functions of
      [core/session.py], which work on the file system and either succeed or
      fail with an error of the named class;
    - [open_wb path] and [f_write size] are [audio_path.open("wb")] and
      [f.write(chunk)] for a chunk of [size] bytes, with the exception they
      raise, if any;
    - [process_audio_file] is the function of [services/audio_service.py]. *)
Variable Response : Type.
Variable suffix_lower : string -> string.
Variable session_id : string.
Variable session_dir : string -> string + string.
Variable cleanup_session : string -> option string.
Variable open_wb : string -> option exc.
Variable f_write : Z -> option exc.
Variable process_audio_file : string -> string -> string -> outcome Response.

(** The loop [while chunk := await file.read(1024 * 1024)]; a chunk is
    represented by its length, and the chunk of length zero ends the loop. *)
Fixpoint receive (chunks : list Z) (total_size : Z)
  : option exc * list event :=
  match chunks with
  | [] => (None, [])
  | chunk :: rest =>
      if chunk =? 0 then (None, [])
      else
        let total_size := total_size + chunk in
        if MAX_FILE_SIZE_MB * 1024 * 1024 <? total_size
        then (Some (HTTPException 413), [])
        else
          match f_write chunk with
          | Some e => (Some e, [])
          | None =>
              let '(r, log) := receive rest total_size in
              (r, Write chunk :: log)
          end
  end.

(** The body of the [try] statement. *)
Definition try_body (audio_path filename device : string) (chunks : list Z)
  : outcome Response * list event :=
  match open_wb audio_path with
  | Some e => (Raised e, [])
  | None =>
      match receive chunks 0 with
      | (Some e, log) => (Raised e, log)
      | (None, log) =>
          (process_audio_file session_id filename device, log ++ [Process])
      end
  end.

(** An [except] clause: clean the session up, then raise [HTTPException]. *)
Definition cleanup_and_raise (status_code : Z) (log : list event)
  : outcome Response * list event :=
  match cleanup_session session_id with
  | Some cls => (Raised (OtherException cls), log)
  | None => (Raised (HTTPException status_code), log ++ [Cleanup session_id])
  end.

(** [upload_and_process(file, device)] for an upload named [filename] that
    is read as [chunks]. *)
Definition upload_and_process (filename : string) (chunks : list Z)
  (device : string) : outcome Response * list event :=
  let suffix := suffix_lower filename in
  if negb (existsb (String.eqb suffix) ALLOWED_EXTENSIONS)
  then (Raised (HTTPException 400), [])
  else
    match session_dir session_id with
    | inr cls => (Raised (OtherException cls), [])
    | inl sess_dir =>
        let audio_path := sess_dir +:+ "/" +:+ filename in
        match try_body audio_path filename device chunks with
        | (Return result, log) => (Return result, log)
        | (Raised FileNotFoundError, log) => cleanup_and_raise 404 log
        | (Raised _, log) => cleanup_and_raise 500 log
        end
    end.

End upload_and_process.

(** Total length of the chunks the loop reads: up to the first empty one. *)
Fixpoint received_size (chunks : list Z) : Z :=
  match chunks with
  | [] => 0
  | chunk :: rest => if chunk =? 0 then 0 else chunk + received_size rest
  end.

Definition is_write (ev : event) : Prop :=
  match ev with Write _ => True | _ => False end.

Fixpoint written (log : list event) : Z :=
  match log with
  | [] => 0
  | Write size :: rest => size + written rest
  | _ :: rest => written rest
  end.

End Upload.

(** A host where every collaborator of the endpoint succeeds, and an upload
    of 101 chunks of one mebibyte. *)
Module UploadExamples.
Import Upload.

Definition suffix_lower (name : string) : string := ".wav".
Definition session_dir (id : string) : string + string :=
  inl ("/tmp/music-ai/sessions/" +:+ id).
Definition cleanup_session (id : string) : option string := None.
Definition open_wb (path : string) : option exc := None.
Definition f_write (size : Z) : option exc := None.
Definition process_audio_file (id filename device : string) : outcome unit :=
  Return tt.

Definition big_upload : list Z := repeat (1024 * 1024) 101.

Definition upload (filename : string) (chunks : list Z) (device : string)
  : outcome unit * list event :=
  upload_and_process unit suffix_lower "session-1" session_dir
    cleanup_session open_wb f_write process_audio_file filename chunks device.

End UploadExamples.

(** ** Facts about fallible loops *)

Module ResultFacts.

Lemma mapM_result_Ok {A B : Type} (f : A -> result B) (g : A -> B)
  (l : list A) :
  Forall (fun x => f x = Ok (g x)) l -> mapM f l = Ok (map g l).
Proof.
  induction 1 as [|x l Hx _ IH]; simpl; [reflexivity|].
  now rewrite Hx, IH.
Qed.

Lemma mapM_result_Forall2 {A B : Type} (f : A -> result B)
  (l : list A) (l' : list B) :
  mapM f l = Ok l' -> Forall2 (fun x y => f x = Ok y) l l'.
Proof.
  revert l'; induction l as [|x l IH]; intros l' H; simpl in H.
  - injection H as <-. constructor.
  - destruct (f x) as [y|e] eqn:Hx; simpl in H; [|discriminate].
    destruct (mapM f l) as [ys|e]; simpl in H; [|discriminate].
    injection H as <-. constructor; [exact Hx | now apply IH].
Qed.

Lemma mapM_result_total {A B : Type} (f : A -> result B) (P : B -> Prop)
  (l : list A) :
  Forall (fun x => exists y, f x = Ok y /\ P y) l ->
  exists l', mapM f l = Ok l' /\ Forall P l'.
Proof.
  induction 1 as [|x l (y & Hy & HP) _ (l' & Hl' & HPl')]; simpl.
  - exists []. split; [reflexivity | constructor].
  - exists (y :: l'). rewrite Hy, Hl'. split; [reflexivity|].
    now constructor.
Qed.

Lemma mapM_result_length {A B : Type} (f : A -> result B)
  (l : list A) (l' : list B) :
  mapM f l = Ok l' -> length l' = length l.
Proof.
  revert l'; induction l as [|x l IH]; intros l' H; simpl in H.
  - now injection H as <-.
  - destruct (f x) as [y|e]; simpl in H; [|discriminate].
    destruct (mapM f l) as [ys|e]; simpl in H; [|discriminate].
    injection H as <-. simpl. f_equal. now apply IH.
Qed.

End ResultFacts.

(** ** Facts about array primitives *)

Module NumpyFacts.
Import Numpy.

Lemma roll_length (v : list Q) (k : nat) : length (roll v k) = length v.
Proof.
  unfold roll. destruct (length v) as [|n] eqn:Hn; [exact Hn|].
  rewrite length_app, length_skipn, length_firstn, Hn.
  pose proof (Nat.mod_upper_bound k (S n)). lia.
Qed.

Lemma roll_nonneg (v : list Q) (k : nat) : nonneg v -> nonneg (roll v k).
Proof.
  unfold roll, nonneg. intros H. destruct (length v); [exact H|].
  apply Forall_app. split.
  - now apply Forall_drop.
  - now apply Forall_take.
Qed.

Lemma dot_Ok (u v : list Q) :
  length u = length v -> dot u v = Ok (dot_aux u v).
Proof.
  intros H. unfold dot. now rewrite H, Nat.eqb_refl.
Qed.

Lemma dot_aux_nonneg (u v : list Q) :
  nonneg u -> nonneg v -> (0 <= dot_aux u v)%Q.
Proof.
  intros Hu. revert v. induction Hu as [|x u Hx _ IH]; intros v Hv; simpl.
  - apply Qle_refl.
  - destruct Hv as [|y v Hy Hv]; [apply Qle_refl|].
    pose proof (Qmult_le_0_compat _ _ Hx Hy).
    pose proof (IH _ Hv). lra.
Qed.

Lemma Qsum_nonneg (v : list Q) : nonneg v -> (0 <= Qsum v)%Q.
Proof.
  induction 1 as [|x v Hx _ IH]; simpl; [apply Qle_refl | lra].
Qed.

Lemma Qdiv_nonneg (x d : Q) : (0 <= x)%Q -> (0 <= d)%Q -> (0 <= x / d)%Q.
Proof.
  intros Hx Hd. apply Qmult_le_0_compat; [exact Hx|].
  now apply Qinv_le_0_compat.
Qed.

Lemma mean_nonneg (v : list Q) : nonneg v -> (0 <= mean v)%Q.
Proof.
  intros H. apply Qdiv_nonneg; [now apply Qsum_nonneg|].
  unfold Qle; simpl. lia.
Qed.

Lemma transpose_rows_length (a : ndarray2) :
  Forall (fun frame => length frame = shape0 a) (rows (transpose a)).
Proof.
  unfold transpose; simpl. apply List.Forall_forall. intros frame Hin.
  apply in_map_iff in Hin as (j & <- & _).
  unfold column. now rewrite length_map.
Qed.

End NumpyFacts.

(** ** Facts about audio loading and the waveform preview *)

Module AudioIOFacts.
Import Numpy AudioIO ResultFacts.

Lemma chunks_length (k n : nat) (v : list Q) : length (chunks k n v) = n.
Proof.
  revert v; induction n as [|n IH]; intros v; simpl; [reflexivity|].
  now rewrite IH.
Qed.

(** Shape of the preview on the chunked path. *)
Lemma waveform_preview_points (audio : ndarray2) (max_points : Z) :
  1 <= max_points ->
  exists preview,
    waveform_preview audio max_points = Ok preview /\
    Z.of_nat (points preview) =
      let samples := Z.of_nat (shape1 audio) in
      if samples <=? max_points then samples
      else samples / (samples / max_points).
Proof.
  intros Hmax. unfold waveform_preview.
  set (samples := Z.of_nat (shape1 audio)).
  destruct (Z.leb_spec samples max_points) as [Hle|Hgt].
  - exists audio. split; [reflexivity|]. simpl.
    destruct (Z.leb_spec samples max_points); [reflexivity | lia].
  - destruct (Z.eqb_spec max_points 0) as [->|_]; [lia|].
    assert (Hcs : 1 <= samples / max_points).
    { apply Z.div_le_lower_bound; lia. }
    destruct (Z.eqb_spec (samples / max_points) 0) as [E|_]; [lia|].
    assert (Hap : 0 <= samples / (samples / max_points)).
    { apply Z.div_pos; lia. }
    destruct (Z.ltb_spec (samples / max_points) 0); [lia|].
    destruct (Z.ltb_spec (samples / (samples / max_points)) 0); [lia|].
    simpl. eexists. split; [reflexivity|].
    unfold points; simpl.
    destruct (Z.leb_spec samples max_points); [lia|].
    now rewrite Z2Nat.id.
Qed.

(** The preview is empty only for an empty buffer. *)
Lemma waveform_preview_points_zero (audio preview : ndarray2) (max_points : Z) :
  1 <= max_points ->
  waveform_preview audio max_points = Ok preview ->
  points preview = 0%nat ->
  shape1 audio = 0%nat.
Proof.
  intros Hmax Hrun Hz.
  destruct (waveform_preview_points audio max_points Hmax) as (p & Hp & Hn).
  rewrite Hrun in Hp. injection Hp as <-.
  rewrite Hz in Hn. cbv zeta in Hn.
  destruct (Z.leb_spec (Z.of_nat (shape1 audio)) max_points) as [Hle|Hgt].
  - lia.
  - exfalso.
    set (samples := Z.of_nat (shape1 audio)) in *.
    assert (Hcs : 1 <= samples / max_points)
      by (apply Z.div_le_lower_bound; lia).
    assert (Hcs' : samples / max_points <= samples).
    { apply Z.div_le_upper_bound; nia. }
    assert (1 <= samples / (samples / max_points)).
    { apply Z.div_le_lower_bound; lia. }
    simpl in Hn. lia.
Qed.

(** The chunked path never emits twice [max_points] points or more. *)
Lemma waveform_preview_points_lt_double
  (audio preview : ndarray2) (max_points : Z) :
  1 <= max_points ->
  waveform_preview audio max_points = Ok preview ->
  Z.of_nat (points preview) < 2 * max_points.
Proof.
  intros Hmax Hrun.
  destruct (waveform_preview_points audio max_points Hmax) as (p & Hp & Hn).
  rewrite Hrun in Hp. injection Hp as <-.
  rewrite Hn. cbv zeta.
  set (samples := Z.of_nat (shape1 audio)).
  destruct (Z.leb_spec samples max_points) as [Hle|Hgt]; [lia|].
  set (c := samples / max_points).
  assert (Hc : 1 <= c) by (apply Z.div_le_lower_bound; lia).
  assert (Hs : samples < max_points * (c + 1)).
  { unfold c. pose proof (Z.mul_succ_div_gt samples max_points). lia. }
  apply Z.div_lt_upper_bound; [lia|]. nia.
Qed.

(** A three-minute track at 44100 Hz with the default [max_points]. *)
Lemma waveform_preview_three_minutes (audio : ndarray2) :
  Z.of_nat (shape1 audio) = 7938000 ->
  exists preview,
    waveform_preview audio 4096 = Ok preview /\
    Z.of_nat (points preview) = 4098.
Proof.
  intros Hs.
  assert (Hmax : 1 <= 4096) by lia.
  destruct (waveform_preview_points audio 4096 Hmax) as (p & Hp & Hn).
  exists p. split; [exact Hp|]. rewrite Hn, Hs. reflexivity.
Qed.

(** C1 (fails on the code). [waveform_preview] is documented to emit at most
    [max_points] points per channel, yet on one channel of seven samples with
    [max_points = 4] the chunk size is [7 // 4 = 1] and the preview keeps all
    seven points. *)
Theorem waveform_preview_exceeds_max_points :
  exists preview,
    waveform_preview AudioIOExamples.seven_samples 4 = Ok preview /\
    points preview = 7%nat /\
    ~ (Z.of_nat (points preview) <= 4).
Proof.
  eexists. split; [reflexivity|]. split; [reflexivity|].
  change (~ (7 <= 4)). lia.
Qed.

Section load_audio_facts.

Variable sf_read : string -> result (ndarray2 * Z).
Variable librosa_load : string -> result (ndarray * Z).
Variable librosa_resample : list Q -> Z -> Z -> result (list Q).

Local Abbreviation decode := (load_audio_decode sf_read librosa_load).
Local Abbreviation load :=
  (load_audio sf_read librosa_load librosa_resample).

Lemma load_audio_decode_raises (path : string) (e : exn) :
  decode path = Raise e ->
  forall target_sr mono, load path target_sr mono = Raise e.
Proof.
  intros H target_sr mono. unfold load_audio. now rewrite H.
Qed.

Lemma stack_shape0 (vs : list (list Q)) (a : ndarray2) :
  stack vs = Ok a -> shape0 a = length vs.
Proof.
  unfold stack. destruct vs as [|v rest]; [discriminate|].
  destruct (forallb _ rest); [|discriminate].
  now injection 1 as <-.
Qed.

(** C3 (amended). The primary decoder's result is used when it succeeds; when
    it raises an [Exception] the fallback decoder is consulted, and when that
    one raises as well, its exception reaches the caller of [load_audio]
    unchanged. *)
Theorem load_audio_fallback_propagates
  (path : string) (target_sr : Z) (mono : bool) :
  match sf_read path with
  | Ok (a, sr) => decode path = Ok (transpose a, sr)
  | Raise (Exception _) =>
      match librosa_load path with
      | Ok (Arr1 v, sr) => decode path = Ok (newaxis v, sr)
      | Ok (Arr2 a, sr) => decode path = Ok (a, sr)
      | Raise e => load path target_sr mono = Raise e
      end
  | Raise (BaseException c) =>
      load path target_sr mono = Raise (BaseException c)
  end.
Proof.
  unfold load_audio, load_audio_decode.
  destruct (sf_read path) as [[a sr]|[c|c]]; simpl; try reflexivity.
  destruct (librosa_load path) as [[[v|a] sr]|e]; reflexivity.
Qed.

(** C8. Whenever [load_audio] returns a buffer, its sample rate is exactly
    [target_sr], and it has one channel if [mono] was requested and as many
    channels as the decoded file otherwise. Decoders deliver at least one
    channel. *)
Theorem load_audio_rate_and_channels
  (path : string) (target_sr : Z) (mono : bool)
  (decoded : ndarray2) (file_sr : Z) (audio : ndarray2) (sr : Z) :
  decode path = Ok (decoded, file_sr) ->
  (1 <= shape0 decoded)%nat ->
  load path target_sr mono = Ok (audio, sr) ->
  sr = target_sr /\
  shape0 audio = if mono then 1%nat else shape0 decoded.
Proof.
  intros Hdec Hch Hload. unfold load_audio in Hload.
  rewrite Hdec in Hload. simpl in Hload.
  set (mixed := if mono && (1 <? shape0 decoded)%nat
                then mean_axis0_keepdims decoded else decoded) in *.
  assert (Hmixed : shape0 mixed = if mono then 1%nat else shape0 decoded).
  { unfold mixed. destruct mono; simpl; [|reflexivity].
    destruct (Nat.ltb_spec 1 (shape0 decoded)); [reflexivity | lia]. }
  destruct (Z.eqb_spec file_sr target_sr) as [->|Hne]; simpl in Hload.
  - injection Hload as <- <-. now split.
  - destruct (mapM _ (rows mixed)) as [resampled|e] eqn:Hmap;
      simpl in Hload; [|discriminate].
    destruct (stack resampled) as [stacked|e] eqn:Hstack;
      simpl in Hload; [|discriminate].
    injection Hload as <- <-. split; [reflexivity|].
    rewrite (stack_shape0 _ _ Hstack), (mapM_result_length _ _ _ Hmap).
    exact Hmixed.
Qed.

End load_audio_facts.

(** Both decoders fail, and the caller sees the fallback decoder's
    [NoBackendError], not a [DecodeError]. *)
Lemma load_audio_failure_is_not_DecodeError :
  ~ (forall sf_read librosa_load librosa_resample path target_sr mono,
        raises (sf_read path) ->
        raises (librosa_load path) ->
        load_audio sf_read librosa_load librosa_resample path target_sr mono
        = Raise DecodeError).
Proof.
  intros H.
  specialize (H AudioIOExamples.sf_read_unsupported
                AudioIOExamples.librosa_load_no_backend
                AudioIOExamples.resample_repeat
                "track.m4a"%string 44100 false I I).
  vm_compute in H. discriminate H.
Qed.

Lemma load_audio_rate_and_channels_witness :
  exists audio,
    load_audio AudioIOExamples.sf_read_stereo
               AudioIOExamples.librosa_load_mono
               AudioIOExamples.resample_repeat
               "track.wav"%string 44100 true = Ok (audio, 44100) /\
    shape0 audio = 1%nat /\ shape1 audio = 6%nat.
Proof.
  eexists. split; [vm_compute; reflexivity|].
  split; [|reflexivity].
  refine (proj2 (load_audio_rate_and_channels
                   AudioIOExamples.sf_read_stereo
                   AudioIOExamples.librosa_load_mono
                   AudioIOExamples.resample_repeat
                   "track.wav"%string 44100 true
                   _ 22050 _ 44100 _ _ _)).
  - vm_compute. reflexivity.
  - vm_compute. lia.
  - vm_compute. reflexivity.
Defined.

End AudioIOFacts.

(** ** Facts about the scans *)

Module ScanFacts.
Import Scan.

Lemma Qgtb_true (a b : Q) : Qgtb a b = true -> (b < a)%Q.
Proof.
  unfold Qgtb. intros H. apply negb_true_iff in H.
  apply Qnot_le_lt. intros Hle. apply Qle_bool_iff in Hle. congruence.
Qed.

Lemma Qgtb_false (a b : Q) : Qgtb a b = false -> (a <= b)%Q.
Proof.
  unfold Qgtb. intros H. apply negb_false_iff in H.
  now apply Qle_bool_iff.
Qed.

Lemma first_maximum_snoc {A : Type} (key : A -> Q) (seen : list A)
  (k : nat) (cur item : A) :
  first_maximum key seen k cur ->
  exists k',
    first_maximum key (seen ++ [item]) k' (keep_greater key cur item).
Proof.
  intros (Hk & Hmax & Hfirst). unfold keep_greater.
  destruct (Qgtb (key item) (key cur)) eqn:Hgt.
  - apply Qgtb_true in Hgt. exists (length seen). repeat split.
    + rewrite lookup_app_r by lia. now rewrite Nat.sub_diag.
    + intros j c Hj. apply lookup_app_Some in Hj as [Hj|[_ Hj]].
      * apply Qlt_le_weak. eapply Qle_lt_trans; [eapply Hmax; eauto|exact Hgt].
      * apply list_lookup_singleton_Some in Hj as [_ <-]. apply Qle_refl.
    + intros j c Hj Hlt. rewrite lookup_app_l in Hj by exact Hlt.
      eapply Qle_lt_trans; [eapply Hmax; eauto|exact Hgt].
  - apply Qgtb_false in Hgt. exists k. repeat split.
    + apply lookup_app_l_Some. exact Hk.
    + intros j c Hj. apply lookup_app_Some in Hj as [Hj|[_ Hj]].
      * eapply Hmax; eauto.
      * apply list_lookup_singleton_Some in Hj as [_ <-]. exact Hgt.
    + intros j c Hj Hlt. apply lookup_lt_Some in Hk.
      rewrite lookup_app_l in Hj by lia. eapply Hfirst; eauto.
Qed.

Lemma fold_keep_greater_first_maximum {A : Type} (key : A -> Q)
  (rest seen : list A) (k : nat) (cur : A) :
  first_maximum key seen k cur ->
  exists k',
    first_maximum key (seen ++ rest) k' (fold_left (keep_greater key) rest cur).
Proof.
  revert seen k cur. induction rest as [|item rest IH]; intros seen k cur H.
  - exists k. now rewrite app_nil_r.
  - destruct (first_maximum_snoc key seen k cur item H) as (k1 & H1).
    destruct (IH _ _ _ H1) as (k2 & H2).
    exists k2. simpl. now rewrite <- app_assoc in H2.
Qed.

Lemma first_maximum_singleton {A : Type} (key : A -> Q) (x : A) :
  first_maximum key [x] 0 x.
Proof.
  repeat split.
  - intros j c Hj. apply list_lookup_singleton_Some in Hj as [_ <-].
    apply Qle_refl.
  - intros j c _ Hlt. lia.
Qed.

(** [max(items, key=key)] returns the first item whose key is maximal. *)
Lemma py_max_first_maximum {A : Type} (key : A -> Q) (items : list A) (b : A) :
  py_max key items = Ok b ->
  exists k, first_maximum key items k b.
Proof.
  destruct items as [|first rest]; simpl; [discriminate|].
  injection 1 as <-.
  exact (fold_keep_greater_first_maximum key rest [first] 0 first
           (first_maximum_singleton key first)).
Qed.

Lemma py_min2_le_l (a b : Q) : (py_min2 a b <= a)%Q.
Proof.
  unfold py_min2. destruct (Qgtb a b) eqn:H.
  - apply Qlt_le_weak. now apply Qgtb_true.
  - apply Qle_refl.
Qed.

Lemma py_min2_glb (a b c : Q) : (c <= a)%Q -> (c <= b)%Q -> (c <= py_min2 a b)%Q.
Proof. unfold py_min2. now destruct (Qgtb a b). Qed.

Lemma py_max2_le_l (a b : Q) : (a <= py_max2 a b)%Q.
Proof.
  unfold py_max2. destruct (Qgtb b a) eqn:H.
  - apply Qlt_le_weak. now apply Qgtb_true.
  - apply Qle_refl.
Qed.

Lemma py_max2_le_r (a b : Q) : (b <= py_max2 a b)%Q.
Proof.
  unfold py_max2. destruct (Qgtb b a) eqn:H.
  - apply Qle_refl.
  - now apply Qgtb_false.
Qed.

Lemma py_max2_lub (a b c : Q) : (a <= c)%Q -> (b <= c)%Q -> (py_max2 a b <= c)%Q.
Proof. unfold py_max2. now destruct (Qgtb b a). Qed.

End ScanFacts.

(** ** Facts about key estimation *)

Module KeyBpmFacts.
Import Numpy Scan KeyBpm NumpyFacts ScanFacts ResultFacts.

Section estimate_key_facts.

Variable sqrt : Q -> Q.

Lemma key_scores_Ok (chroma : ndarray2) :
  shape0 chroma = 12%nat ->
  key_scores sqrt chroma
  = Ok (flat_map (rotation_scores sqrt chroma) (seq 0 12)).
Proof.
  intros H12. unfold key_scores.
  rewrite (mapM_result_Ok _ (rotation_scores sqrt chroma)).
  - reflexivity.
  - apply List.Forall_forall. intros i _.
    rewrite !dot_Ok; [reflexivity|..];
      unfold vdiv, mean_axis1; rewrite roll_length, !length_map;
      exact H12.
Qed.

Lemma rotation_scores_order (chroma : ndarray2) :
  map fst (flat_map (rotation_scores sqrt chroma) (seq 0 12))
  = canonical_order.
Proof. reflexivity. Qed.

Lemma canonical_order_tonic (k : nat) (m : mode) (tonic : nat) :
  canonical_order !! k = Some (m, tonic) ->
  (tonic < 12)%nat /\
  k = (2 * tonic + match m with major => 0 | minor => 1 end)%nat.
Proof.
  intros H.
  do 24 (destruct k as [|k]; [injection H as <- <-; split; [lia|reflexivity]|]).
  discriminate H.
Qed.

Lemma key_label_Ok (m : mode) (tonic : nat) :
  (tonic < 12)%nat -> exists label, key_label m tonic = Ok label.
Proof.
  intros H. unfold key_label.
  destruct (_KEY_NAMES !! tonic) as [name|] eqn:E; [eauto|].
  apply lookup_ge_None in E. simpl in E. lia.
Qed.

Lemma best_key_first_maximum (chroma : ndarray2) :
  shape0 chroma = 12%nat ->
  exists k m tonic best,
    best_key sqrt chroma = Ok (m, tonic, best) /\
    first_maximum score
      (flat_map (rotation_scores sqrt chroma) (seq 0 12)) k (m, tonic, best) /\
    canonical_order !! k = Some (m, tonic).
Proof.
  intros H12. unfold best_key. rewrite (key_scores_Ok chroma H12).
  change (exists k m tonic best,
    py_max score (flat_map (rotation_scores sqrt chroma) (seq 0 12))
    = Ok (m, tonic, best) /\
    first_maximum score
      (flat_map (rotation_scores sqrt chroma) (seq 0 12)) k (m, tonic, best) /\
    canonical_order !! k = Some (m, tonic)).
  rewrite <- (rotation_scores_order chroma).
  set (scores := flat_map (rotation_scores sqrt chroma) (seq 0 12)).
  destruct (py_max score scores) as [[[m tonic] best]|e] eqn:Hmax.
  - destruct (py_max_first_maximum _ _ _ Hmax) as (k & Hk).
    exists k, m, tonic, best. repeat split; try apply Hk.
    destruct Hk as (Hk & _).
    change (map fst scores) with (fst <$> scores).
    pose proof (f_equal (fmap fst) Hk) as Hfst.
    rewrite <- list_lookup_fmap in Hfst. exact Hfst.
  - discriminate Hmax.
Qed.

(** C4. On a twelve-row chromagram [_estimate_key] returns the key of the
    candidate that [max] selects from the 24 scores, listed tonic by tonic
    with major before minor: no candidate scores higher, and every candidate
    earlier in that order scores strictly lower, so among equal maximal
    scores the first one in canonical order wins. *)
Theorem estimate_key_first_maximum_in_canonical_order (chroma : ndarray2) :
  shape0 chroma = 12%nat ->
  exists scores k m tonic best label,
    key_scores sqrt chroma = Ok scores /\
    map fst scores = canonical_order /\
    first_maximum score scores k (m, tonic, best) /\
    (tonic < 12)%nat /\
    k = (2 * tonic + match m with major => 0 | minor => 1 end)%nat /\
    key_label m tonic = Ok label /\
    _estimate_key sqrt chroma
    = Ok {| key := label; confidence := key_confidence best |}.
Proof.
  intros H12.
  destruct (best_key_first_maximum chroma H12)
    as (k & m & tonic & best & Hbest & Hfirst & Hk).
  destruct (canonical_order_tonic _ _ _ Hk) as (Htonic & Hindex).
  destruct (key_label_Ok m tonic Htonic) as (label & Hlabel).
  exists (flat_map (rotation_scores sqrt chroma) (seq 0 12)),
    k, m, tonic, best, label.
  repeat split; try apply Hfirst; try assumption.
  - now apply key_scores_Ok.
  - unfold _estimate_key. rewrite Hbest. simpl. now rewrite Hlabel.
Qed.

Lemma estimate_key_Ok (chroma : ndarray2) :
  shape0 chroma = 12%nat ->
  exists label best,
    _estimate_key sqrt chroma
    = Ok {| key := label; confidence := key_confidence best |}.
Proof.
  intros H12.
  destruct (best_key_first_maximum chroma H12)
    as (k & m & tonic & best & Hbest & _ & Hk).
  destruct (canonical_order_tonic _ _ _ Hk) as (Htonic & _).
  destruct (key_label_Ok m tonic Htonic) as (label & Hlabel).
  exists label, best.
  unfold _estimate_key. rewrite Hbest. simpl. now rewrite Hlabel.
Qed.

Lemma key_confidence_unit_interval (best : Q) :
  (0 <= key_confidence best <= 1)%Q.
Proof.
  unfold key_confidence. split.
  - apply py_max2_le_l.
  - apply py_max2_lub; [discriminate | apply py_min2_le_l].
Qed.

Lemma key_confidence_half (best : Q) :
  (0 <= best)%Q -> (1 / 2 <= key_confidence best)%Q.
Proof.
  intros H. unfold key_confidence.
  eapply Qle_trans; [|apply py_max2_le_r].
  apply py_min2_glb; [discriminate|].
  apply Qle_shift_div_l; [reflexivity|].
  assert (E : (1 / 2 * 2 == 1)%Q) by reflexivity. rewrite E. lra.
Qed.

Lemma vdiv_nonneg (v : list Q) (d : Q) :
  nonneg v -> (0 <= d)%Q -> nonneg (vdiv v d).
Proof.
  intros Hv Hd. unfold vdiv, nonneg.
  apply List.Forall_forall. intros y Hy.
  apply in_map_iff in Hy as (x & <- & Hx).
  apply Qdiv_nonneg; [|exact Hd].
  unfold nonneg in Hv. rewrite List.Forall_forall in Hv. now apply Hv.
Qed.

Lemma krumhansl_nonneg : nonneg _KRUMHANSL_MAJOR /\ nonneg _KRUMHANSL_MINOR.
Proof.
  split; repeat constructor; discriminate.
Qed.

Hypothesis sqrt_nonneg : forall x, (0 <= sqrt x)%Q.

Lemma rotation_scores_nonneg (chroma : ndarray2) (i : nat) :
  Forall nonneg (rows chroma) ->
  Forall (fun c => (0 <= score c)%Q) (rotation_scores sqrt chroma i).
Proof.
  intros Hchroma.
  assert (Hnorm : nonneg
    (vdiv (mean_axis1 chroma) (norm sqrt (mean_axis1 chroma) + 1e-9)%Q)).
  { apply vdiv_nonneg.
    - unfold mean_axis1, nonneg. apply List.Forall_forall. intros y Hy.
      apply in_map_iff in Hy as (row & <- & Hrow).
      apply mean_nonneg. rewrite List.Forall_forall in Hchroma.
      now apply Hchroma.
    - unfold norm.
      assert (Heps : (0 <= 1e-9)%Q) by discriminate.
      pose proof (sqrt_nonneg
        (Qsum (map (fun x => (x * x)%Q) (mean_axis1 chroma)))) as Hs.
      revert Heps Hs. generalize (1e-9)%Q.
      generalize (sqrt (Qsum (map (fun x => (x * x)%Q) (mean_axis1 chroma)))).
      intros a b Hb Ha. lra. }
  destruct krumhansl_nonneg as (Hmaj & Hmin).
  unfold rotation_scores.
  apply List.Forall_cons; [|apply List.Forall_cons; [|apply List.Forall_nil]];
    unfold score; cbn [snd];
    (apply dot_aux_nonneg; [exact Hnorm|]); apply roll_nonneg;
    apply vdiv_nonneg; try assumption; apply sqrt_nonneg.
Qed.

(** C10. With a non-negative square root and a twelve-row chromagram of
    non-negative values, [_estimate_key] returns a confidence of at least one
    half (and at most one): the best score is a dot product of non-negative
    vectors, so [(best + 1) / 2] is at least [1 / 2] and the lower clamp at
    zero is never active. *)
Theorem estimate_key_confidence_at_least_half (chroma : ndarray2) :
  shape0 chroma = 12%nat ->
  Forall nonneg (rows chroma) ->
  exists est,
    _estimate_key sqrt chroma = Ok est /\
    (1 / 2 <= confidence est <= 1)%Q.
Proof.
  intros H12 Hchroma.
  destruct (best_key_first_maximum chroma H12)
    as (k & m & tonic & best & Hbest & (Hk & _) & Hord).
  destruct (canonical_order_tonic _ _ _ Hord) as (Htonic & _).
  destruct (key_label_Ok m tonic Htonic) as (label & Hlabel).
  exists {| key := label; confidence := key_confidence best |}. split.
  - unfold _estimate_key. rewrite Hbest. simpl. now rewrite Hlabel.
  - assert (Hpos : (0 <= best)%Q).
    { apply list_elem_of_lookup_2 in Hk. apply list_elem_of_In in Hk.
      apply in_flat_map in Hk as (i & _ & Hin).
      pose proof (rotation_scores_nonneg chroma i Hchroma) as Hall.
      rewrite List.Forall_forall in Hall. exact (Hall _ Hin). }
    simpl. split.
    + now apply key_confidence_half.
    + apply key_confidence_unit_interval.
Qed.

End estimate_key_facts.

Lemma sqrt_9_nonneg (x : Q) : (0 <= AnalysisExamples.sqrt_9 x)%Q.
Proof.
  unfold AnalysisExamples.sqrt_9, Qle. simpl.
  pose proof (Z.sqrt_nonneg (Qnum x * 10 ^ 18 / Zpos (Qden x))). lia.
Qed.

(** A C major triad is labelled C major. *)
Example estimate_key_c_major :
  key <$> _estimate_key AnalysisExamples.sqrt_9 AnalysisExamples.c_major_chroma
  = Ok "C major"%string.
Proof. vm_compute. reflexivity. Qed.

(** On silence all 24 scores are equal and the first candidate wins. *)
Example estimate_key_silence :
  exists est,
    _estimate_key AnalysisExamples.sqrt_9 AnalysisExamples.silent_chroma
    = Ok est /\
    key est = "C major"%string /\ (confidence est == 1 / 2)%Q.
Proof. eexists. split; [vm_compute; reflexivity|]. split; reflexivity. Qed.

Lemma estimate_key_first_maximum_in_canonical_order_witness :
  exists scores k m tonic best label,
    key_scores AnalysisExamples.sqrt_9 AnalysisExamples.silent_chroma
    = Ok scores /\
    map fst scores = canonical_order /\
    first_maximum score scores k (m, tonic, best) /\
    (tonic < 12)%nat /\
    k = (2 * tonic + match m with major => 0 | minor => 1 end)%nat /\
    key_label m tonic = Ok label /\
    _estimate_key AnalysisExamples.sqrt_9 AnalysisExamples.silent_chroma
    = Ok {| key := label; confidence := key_confidence best |}.
Proof.
  apply (estimate_key_first_maximum_in_canonical_order
           AnalysisExamples.sqrt_9 AnalysisExamples.silent_chroma).
  reflexivity.
Defined.

Lemma estimate_key_confidence_at_least_half_witness :
  exists est,
    _estimate_key AnalysisExamples.sqrt_9 AnalysisExamples.c_major_chroma
    = Ok est /\
    (1 / 2 <= confidence est <= 1)%Q.
Proof.
  apply (estimate_key_confidence_at_least_half
           AnalysisExamples.sqrt_9 sqrt_9_nonneg
           AnalysisExamples.c_major_chroma).
  - reflexivity.
  - repeat (apply List.Forall_cons;
            [repeat (apply List.Forall_cons; [discriminate|]);
             apply List.Forall_nil|]).
    apply List.Forall_nil.
Defined.

End KeyBpmFacts.

(** ** Facts about chord detection *)

Module ChordsFacts.
Import Numpy Scan Chords NumpyFacts ScanFacts ResultFacts.

Lemma root_step_Ok (frame_chroma : list Q) (best : string * Q) (root : nat) :
  length frame_chroma = 12%nat ->
  root_step frame_chroma best root
  = Ok (fold_left (keep_greater snd) (frame_candidates frame_chroma root) best).
Proof.
  intros H12. unfold root_step.
  rewrite !dot_Ok by (rewrite roll_length; exact H12).
  reflexivity.
Qed.

Lemma for_each_roots (frame_chroma : list Q) (roots : list nat)
  (best : string * Q) :
  length frame_chroma = 12%nat ->
  for_each (root_step frame_chroma) roots best
  = Ok (fold_left (keep_greater snd)
          (flat_map (frame_candidates frame_chroma) roots) best).
Proof.
  intros H12. revert best.
  induction roots as [|root roots IH]; intros best; [reflexivity|].
  cbn [for_each flat_map]. rewrite (root_step_Ok _ _ _ H12).
  rewrite fold_left_app. exact (IH _).
Qed.

Lemma frame_segment_Ok (sr : Z) (i : nat) (frame_chroma : list Q) :
  length frame_chroma = 12%nat ->
  frame_segment sr i frame_chroma
  = let best := fold_left (keep_greater snd) (all_candidates frame_chroma)
                  ("N"%string, 0%Q) in
    Ok {| time := frame_time sr i;
          chord := fst best;
          confidence := py_min2 1 (snd best / 3) |}.
Proof.
  intros H12. unfold frame_segment. rewrite (for_each_roots _ _ _ H12).
  fold (all_candidates frame_chroma).
  now destruct (fold_left _ (all_candidates frame_chroma) _).
Qed.

Lemma all_candidates_order (frame_chroma : list Q) :
  map fst (all_candidates frame_chroma) = scan_order.
Proof. reflexivity. Qed.

(** Outcome of the scan that starts from [("N", 0)]. *)
Lemma scan_from_no_chord (cands : list (string * Q)) :
  let best := fold_left (keep_greater snd) cands ("N"%string, 0%Q) in
  (0 <= snd best)%Q /\
  ((Forall (fun c => (snd c <= 0)%Q) cands /\ best = ("N"%string, 0%Q)) \/
   (exists k, (0 < snd best)%Q /\ first_maximum snd cands k best)).
Proof.
  intros best.
  destruct (fold_keep_greater_first_maximum snd cands
              [("N"%string, 0%Q)] 0 ("N"%string, 0%Q)
              (first_maximum_singleton snd _)) as (k & Hk & Hmax & Hfirst).
  fold best in Hk, Hmax, Hfirst.
  split; [exact (Hmax 0%nat _ eq_refl)|].
  destruct k as [|k].
  - left. injection Hk as Hbest. split; [|now symmetry].
    apply Forall_lookup. intros j c Hj.
    specialize (Hmax (S j) c Hj). now rewrite <- Hbest in Hmax.
  - right. exists k. split; [exact (Hfirst 0%nat _ eq_refl ltac:(lia))|].
    repeat split.
    + exact Hk.
    + intros j c Hj. exact (Hmax (S j) c Hj).
    + intros j c Hj Hlt. apply (Hfirst (S j) c Hj). lia.
Qed.

(** C5. For a frame of twelve chroma values the label is ["N"] exactly when
    no template score is strictly positive; otherwise it is the label of the
    first maximal score in scan order (roots 0 to 11, major before minor),
    and that score is positive. *)
Theorem frame_segment_label (sr : Z) (i : nat) (frame_chroma : list Q) :
  length frame_chroma = 12%nat ->
  exists seg,
    frame_segment sr i frame_chroma = Ok seg /\
    map fst (all_candidates frame_chroma) = scan_order /\
    ((Forall (fun c => (snd c <= 0)%Q) (all_candidates frame_chroma) /\
      chord seg = "N"%string) \/
     (exists k label best_score,
        (0 < best_score)%Q /\
        first_maximum snd (all_candidates frame_chroma) k (label, best_score) /\
        chord seg = label)).
Proof.
  intros H12. rewrite (frame_segment_Ok sr i _ H12). cbv zeta.
  pose proof (scan_from_no_chord (all_candidates frame_chroma)) as Hscan.
  cbv zeta in Hscan.
  destruct (fold_left (keep_greater snd) (all_candidates frame_chroma) _)
    as [label best_score].
  eexists. split; [reflexivity|]. split; [reflexivity|].
  destruct Hscan as (_ & [(Hall & Hbest)|(k & Hpos & Hfirst)]).
  - left. split; [exact Hall|]. now injection Hbest as -> _.
  - right. exists k, label, best_score. now repeat split; try apply Hfirst.
Qed.

(** A bare fifth C-G scores 2 for both C and Cm; the major label, compared
    first, is kept. *)
Example frame_segment_tie :
  chord <$> frame_segment 44100 0 [1; 0; 0; 0; 0; 0; 0; 1; 0; 0; 0; 0]%Q
  = Ok "C"%string.
Proof. vm_compute. reflexivity. Qed.

Example frame_segment_silence :
  chord <$> frame_segment 44100 0 (repeat 0%Q 12) = Ok "N"%string.
Proof. vm_compute. reflexivity. Qed.

Lemma frame_segment_label_witness :
  let frame_chroma := [1; 0; 0; 0; 0; 0; 0; 1; 0; 0; 0; 0]%Q in
  exists seg,
    frame_segment 44100 0 frame_chroma = Ok seg /\
    map fst (all_candidates frame_chroma) = scan_order /\
    ((Forall (fun c => (snd c <= 0)%Q) (all_candidates frame_chroma) /\
      chord seg = "N"%string) \/
     (exists k label best_score,
        (0 < best_score)%Q /\
        first_maximum snd (all_candidates frame_chroma) k (label, best_score) /\
        chord seg = label)).
Proof.
  intros frame_chroma.
  apply (frame_segment_label 44100 0 frame_chroma).
  reflexivity.
Defined.

(** *** Merging *)

Lemma merge_from (segments acc : list segment) (prev : segment) :
  last acc = Some prev ->
  fold_left merge_step segments acc
  = acc ++ run_starts_after (chord prev) segments.
Proof.
  revert acc prev.
  induction segments as [|seg rest IH]; intros acc prev Hlast; simpl.
  - now rewrite app_nil_r.
  - unfold merge_step at 2. rewrite Hlast.
    destruct (String.eqb_spec (chord prev) (chord seg)) as [E|_].
    + rewrite (IH acc prev Hlast). now rewrite E.
    + rewrite (IH (acc ++ [seg]) seg) by apply last_snoc.
      now rewrite <- app_assoc.
Qed.

Lemma merge_segments_run_starts (segments : list segment) :
  merge_segments segments = run_starts segments.
Proof.
  destruct segments as [|seg rest]; [reflexivity|].
  unfold merge_segments. simpl.
  exact (merge_from rest [seg] seg eq_refl).
Qed.

Lemma run_starts_after_no_repeat (segments : list segment) (prev : string) :
  no_adjacent_repeat (run_starts_after prev segments) /\
  match run_starts_after prev segments with
  | [] => True
  | next :: _ => prev <> chord next
  end.
Proof.
  revert prev. induction segments as [|seg rest IH]; intros prev; simpl.
  - split; exact I.
  - destruct (IH (chord seg)) as (Hrest & Hhead).
    destruct (String.eqb_spec prev (chord seg)) as [->|Hne].
    + split; assumption.
    + simpl. repeat split; assumption.
Qed.

Lemma run_starts_no_repeat (segments : list segment) :
  no_adjacent_repeat (run_starts segments).
Proof.
  destruct segments as [|seg rest]; simpl; [exact I|].
  destruct (run_starts_after_no_repeat rest (chord seg)) as (Hrest & Hhead).
  split; assumption.
Qed.

Lemma run_starts_after_incl (segments : list segment) (prev : string)
  (seg : segment) :
  In seg (run_starts_after prev segments) -> In seg segments.
Proof.
  revert prev. induction segments as [|x rest IH]; intros prev; simpl.
  - tauto.
  - destruct (String.eqb prev (chord x)); simpl; intros H.
    + right. eapply IH, H.
    + destruct H as [H|H]; [now left | right; eapply IH, H].
Qed.

Lemma run_starts_incl (segments : list segment) (seg : segment) :
  In seg (run_starts segments) -> In seg segments.
Proof.
  destruct segments as [|x rest]; simpl; [tauto|].
  intros [H|H]; [now left | right; eapply run_starts_after_incl, H].
Qed.

(** *** The whole function *)

Lemma frame_confidence_unit_interval (sr : Z) (i : nat) (frame_chroma : list Q) :
  length frame_chroma = 12%nat ->
  exists seg,
    frame_segment sr i frame_chroma = Ok seg /\
    (0 <= confidence seg <= 1)%Q.
Proof.
  intros H12. rewrite (frame_segment_Ok sr i _ H12). cbv zeta.
  destruct (scan_from_no_chord (all_candidates frame_chroma)) as (Hpos & _).
  cbv zeta in Hpos.
  set (best := fold_left (keep_greater snd) (all_candidates frame_chroma)
                 ("N"%string, 0%Q)) in *.
  eexists. split; [reflexivity|]. cbn [confidence]. split.
  - apply py_min2_glb; [discriminate|].
    apply Qdiv_nonneg; [exact Hpos | discriminate].
  - apply py_min2_le_l.
Qed.

Lemma frame_segments_Ok (sr : Z) (chroma : ndarray2) :
  shape0 chroma = 12%nat ->
  exists segments,
    frame_segments sr chroma = Ok segments /\
    Forall (fun seg => (0 <= confidence seg <= 1)%Q) segments.
Proof.
  intros H12. unfold frame_segments. apply mapM_result_total.
  apply Forall_lookup. intros j [i frame_chroma] Hj.
  rewrite list_lookup_imap in Hj.
  destruct (rows (transpose chroma) !! j) as [frame|] eqn:Hframe;
    [|discriminate Hj].
  injection Hj as <- <-.
  apply frame_confidence_unit_interval.
  pose proof (transpose_rows_length chroma) as Hlen.
  rewrite Forall_lookup in Hlen. rewrite (Hlen _ _ Hframe). exact H12.
Qed.

Section detect_chords_facts.

Variable load : string -> Z -> bool -> result (ndarray2 * Z).
Variable chroma_cqt : list Q -> Z -> Z -> result ndarray2.

Lemma detect_chords_unfold (audio_path : string) (target_sr : Z)
  (audio : ndarray2) (sr : Z) (mono : list Q) (others : list (list Q))
  (chroma : ndarray2) :
  load audio_path target_sr true = Ok (audio, sr) ->
  rows audio = mono :: others ->
  chroma_cqt mono sr hop_length = Ok chroma ->
  detect_chords load chroma_cqt audio_path target_sr
  = detect_chords_from_chroma sr chroma.
Proof.
  intros Hload Hrows Hcqt. unfold detect_chords.
  rewrite Hload. simpl. rewrite Hrows. simpl. now rewrite Hcqt.
Qed.

(** C7. When decoding and chroma extraction succeed, [detect_chords] returns
    the first frame (with its own time) of every maximal run of frames that
    share a label, so no two neighbours of the returned sequence share a
    chord label. *)
Theorem detect_chords_merges_runs (audio_path : string) (target_sr : Z)
  (audio : ndarray2) (sr : Z) (mono : list Q) (others : list (list Q))
  (chroma : ndarray2) :
  load audio_path target_sr true = Ok (audio, sr) ->
  rows audio = mono :: others ->
  chroma_cqt mono sr hop_length = Ok chroma ->
  shape0 chroma = 12%nat ->
  exists segments chords,
    frame_segments sr chroma = Ok segments /\
    detect_chords load chroma_cqt audio_path target_sr = Ok chords /\
    chords = run_starts segments /\
    no_adjacent_repeat chords.
Proof.
  intros Hload Hrows Hcqt H12.
  destruct (frame_segments_Ok sr chroma H12) as (segments & Hseg & _).
  exists segments, (run_starts segments). split; [exact Hseg|].
  split; [|split; [reflexivity | apply run_starts_no_repeat]].
  rewrite (detect_chords_unfold _ _ _ _ _ _ _ Hload Hrows Hcqt).
  unfold detect_chords_from_chroma. rewrite Hseg. simpl.
  now rewrite merge_segments_run_starts.
Qed.

Lemma detect_chords_confidences (audio_path : string) (target_sr : Z)
  (audio : ndarray2) (sr : Z) (mono : list Q) (others : list (list Q))
  (chroma : ndarray2) :
  load audio_path target_sr true = Ok (audio, sr) ->
  rows audio = mono :: others ->
  chroma_cqt mono sr hop_length = Ok chroma ->
  shape0 chroma = 12%nat ->
  exists chords,
    detect_chords load chroma_cqt audio_path target_sr = Ok chords /\
    Forall (fun seg => (0 <= confidence seg <= 1)%Q) chords.
Proof.
  intros Hload Hrows Hcqt H12.
  destruct (frame_segments_Ok sr chroma H12) as (segments & Hseg & Hconf).
  exists (run_starts segments). split.
  - rewrite (detect_chords_unfold _ _ _ _ _ _ _ Hload Hrows Hcqt).
    unfold detect_chords_from_chroma. rewrite Hseg. simpl.
    now rewrite merge_segments_run_starts.
  - apply List.Forall_forall. intros seg Hin.
    rewrite List.Forall_forall in Hconf.
    apply Hconf. now apply run_starts_incl.
Qed.

End detect_chords_facts.

(** Frames C, C, N, Am, Am are reported as C, N, Am. *)
Example detect_chords_progression :
  map chord <$>
    detect_chords AnalysisExamples.load_mono
      AnalysisExamples.chroma_cqt_progression "song.wav" 44100
  = Ok ["C"; "N"; "Am"]%string.
Proof. vm_compute. reflexivity. Qed.

Lemma detect_chords_merges_runs_witness :
  exists segments chords,
    frame_segments 44100 AnalysisExamples.progression_chroma = Ok segments /\
    detect_chords AnalysisExamples.load_mono
      AnalysisExamples.chroma_cqt_progression "song.wav" 44100 = Ok chords /\
    chords = run_starts segments /\
    no_adjacent_repeat chords.
Proof.
  apply (detect_chords_merges_runs
           AnalysisExamples.load_mono AnalysisExamples.chroma_cqt_progression
           "song.wav" 44100 (of_rows [[0; 0; 0; 0]%Q]) 44100
           [0; 0; 0; 0]%Q [] AnalysisExamples.progression_chroma);
    reflexivity.
Defined.

End ChordsFacts.

(** ** Confidence ranges *)

Module ConfidenceFacts.
Import Numpy.

(** C9. On a twelve-row chromagram - silence included - the confidence
    returned by [_estimate_key] lies in [0, 1], and when decoding and chroma
    extraction succeed every segment returned by [detect_chords] has its
    confidence in [0, 1]. *)
Theorem confidences_in_unit_interval :
  (forall (sqrt : Q -> Q) (chroma : ndarray2),
      shape0 chroma = 12%nat ->
      exists est,
        KeyBpm._estimate_key sqrt chroma = Ok est /\
        (0 <= KeyBpm.confidence est <= 1)%Q) /\
  (forall load chroma_cqt audio_path target_sr audio sr mono others chroma,
      load audio_path target_sr true = Ok (audio, sr) ->
      rows audio = mono :: others ->
      chroma_cqt mono sr Chords.hop_length = Ok chroma ->
      shape0 chroma = 12%nat ->
      exists chords,
        Chords.detect_chords load chroma_cqt audio_path target_sr = Ok chords /\
        Forall (fun seg => (0 <= Chords.confidence seg <= 1)%Q) chords).
Proof.
  split.
  - intros sqrt chroma H12.
    destruct (KeyBpmFacts.estimate_key_Ok sqrt chroma H12)
      as (label & best & Hest).
    eexists. split; [exact Hest|]. simpl.
    apply KeyBpmFacts.key_confidence_unit_interval.
  - intros. eapply ChordsFacts.detect_chords_confidences; eassumption.
Qed.

Lemma confidences_in_unit_interval_witness :
  (exists est,
     KeyBpm._estimate_key AnalysisExamples.sqrt_9 AnalysisExamples.silent_chroma
     = Ok est /\
     (0 <= KeyBpm.confidence est <= 1)%Q) /\
  (exists chords,
     Chords.detect_chords AnalysisExamples.load_mono
       AnalysisExamples.chroma_cqt_progression "song.wav" 44100 = Ok chords /\
     Forall (fun seg => (0 <= Chords.confidence seg <= 1)%Q) chords).
Proof.
  split.
  - apply (proj1 confidences_in_unit_interval). reflexivity.
  - apply (proj2 confidences_in_unit_interval
             AnalysisExamples.load_mono AnalysisExamples.chroma_cqt_progression
             "song.wav" 44100 (of_rows [[0; 0; 0; 0]%Q]) 44100
             [0; 0; 0; 0]%Q [] AnalysisExamples.progression_chroma);
      reflexivity.
Defined.

End ConfidenceFacts.

(** ** Facts about the model cache *)

Module DemucsFacts.
Import Numpy Demucs.

Lemma bind_run {A B : Type} (m : io A) (k : A -> io B) (w : world) :
  (m ≫= k) w
  = match m w with
    | (Ok a, w') => k a w'
    | (Raise e, w') => (Raise e, w')
    end.
Proof. reflexivity. Qed.

Lemma keeps_world_registry {A : Type} (m : io A) :
  keeps_world m -> keeps_registry m.
Proof. intros H w. rewrite H. now repeat split. Qed.

Lemma keeps_world_bind {A B : Type} (m : io A) (k : A -> io B) :
  keeps_world m -> (forall a, keeps_world (k a)) -> keeps_world (m ≫= k).
Proof.
  intros Hm Hk w. rewrite bind_run. specialize (Hm w).
  destruct (m w) as [[a|e] w']; simpl in Hm; subst w'; [apply Hk | reflexivity].
Qed.

Lemma keeps_registry_bind {A B : Type} (m : io A) (k : A -> io B) :
  keeps_registry m -> (forall a, keeps_registry (k a)) ->
  keeps_registry (m ≫= k).
Proof.
  intros Hm Hk w. rewrite bind_run. specialize (Hm w).
  destruct (m w) as [[a|e] w']; simpl in Hm; [|exact Hm].
  destruct Hm as (Hc & Hl & Ho). destruct (Hk a w') as (Hc' & Hl' & Ho').
  repeat split; congruence.
Qed.

Lemma keeps_world_lift {A : Type} (r : result A) : keeps_world (lift r).
Proof. intros w. reflexivity. Qed.

Lemma keeps_world_deref (ref : nat) : keeps_world (deref ref).
Proof. intros w. unfold deref. now destruct (objects w !! ref). Qed.

Lemma keeps_registry_update (ref : nat) (f : model_object -> model_object) :
  keeps_registry (update ref f).
Proof.
  intros w. repeat split. simpl. apply length_alter.
Qed.

Section separate_stems_facts.

Variable get_model : string -> result model_object.
Variable to_device : model_object -> string -> result unit.
Variable mkdir : string -> result unit.
Variable load : string -> Z -> bool -> result (ndarray2 * Z).
Variable apply_model : model_object -> ndarray2 -> string -> result (list ndarray2).
Variable sf_write : string -> ndarray2 -> Z -> result unit.

Local Abbreviation lookup_model := (_get_demucs_model get_model).
Local Abbreviation separate :=
  (separate_stems get_model to_device mkdir load apply_model sf_write).

(** What [separate_stems] does once the model is bound and in [eval] mode
    leaves the process state alone. *)
Lemma inference_keeps_world (ref : nat)
  (audio_path output_dir device : string) :
  keeps_world
    (m ← deref ref;
     '(audio, sr) ← lift (load audio_path (samplerate m) false);
     stems ← lift (apply_model m audio device);
     lift (write_stems sf_write output_dir (samplerate m) stems
             (imap (fun i name => (i, name)) (sources m)) ∅)).
Proof.
  apply keeps_world_bind; [apply keeps_world_deref|]. intros m.
  apply keeps_world_bind; [apply keeps_world_lift|]. intros [audio sr].
  apply keeps_world_bind; [apply keeps_world_lift|]. intros stems.
  apply keeps_world_lift.
Qed.

Lemma model_to_keeps_registry (ref : nat) (d : string) :
  keeps_registry (model_to to_device ref d).
Proof.
  unfold model_to.
  apply keeps_registry_bind;
    [apply keeps_world_registry, keeps_world_deref|]. intros m.
  apply keeps_registry_bind;
    [apply keeps_world_registry, keeps_world_lift|]. intros _.
  apply keeps_registry_update.
Qed.

(** Everything after the cache lookup keeps the cache and the load log. *)
Lemma after_lookup_keeps_registry (ref : nat)
  (audio_path output_dir device : string) :
  keeps_registry
    (_ ← model_to to_device ref device;
     _ ← model_eval ref;
     m ← deref ref;
     '(audio, sr) ← lift (load audio_path (samplerate m) false);
     stems ← lift (apply_model m audio device);
     lift (write_stems sf_write output_dir (samplerate m) stems
             (imap (fun i name => (i, name)) (sources m)) ∅)).
Proof.
  apply keeps_registry_bind; [apply model_to_keeps_registry|]. intros _.
  apply keeps_registry_bind; [apply keeps_registry_update|]. intros _.
  apply keeps_world_registry, inference_keeps_world.
Qed.

Lemma get_demucs_model_hit (model_name : string) (ref : nat) (w : world) :
  _MODEL_CACHE w !! model_name = Some ref ->
  lookup_model model_name w = (Ok ref, w).
Proof. intros H. unfold _get_demucs_model. now rewrite H. Qed.

Lemma get_demucs_model_miss (model_name : string) (m : model_object)
  (w : world) :
  _MODEL_CACHE w !! model_name = None ->
  get_model model_name = Ok m ->
  lookup_model model_name w
  = (Ok (length (objects w)),
     {| objects := objects w ++ [m];
        _MODEL_CACHE := <[model_name := length (objects w)]> (_MODEL_CACHE w);
        get_model_calls := get_model_calls w ++ [model_name] |}).
Proof.
  intros Hnone Hget. unfold _get_demucs_model, load_model.
  rewrite Hnone. simpl. now rewrite Hget.
Qed.

(** A request for a cached model name loads nothing. *)
Lemma separate_stems_hit
  (audio_path output_dir model_name device : string) (ref : nat) (w : world) :
  _MODEL_CACHE w !! model_name = Some ref ->
  same_registry w (snd (separate audio_path output_dir model_name device w)).
Proof.
  intros Hhit. unfold separate_stems. rewrite bind_run. unfold lift at 1.
  destruct (mkdir output_dir) as [[]|e]; [|now repeat split].
  rewrite bind_run, (get_demucs_model_hit _ _ _ Hhit).
  apply after_lookup_keeps_registry.
Qed.

(** A request for a model name that is not cached loads it once and
    caches the new object under that name. *)
Lemma separate_stems_miss
  (audio_path output_dir model_name device : string) (m : model_object)
  (w : world) :
  _MODEL_CACHE w !! model_name = None ->
  mkdir output_dir = Ok tt ->
  get_model model_name = Ok m ->
  let w' := snd (separate audio_path output_dir model_name device w) in
  _MODEL_CACHE w' = <[model_name := length (objects w)]> (_MODEL_CACHE w) /\
  get_model_calls w' = get_model_calls w ++ [model_name] /\
  length (objects w') = S (length (objects w)).
Proof.
  intros Hnone Hmkdir Hget w'.
  assert (Hkeep : same_registry
    {| objects := objects w ++ [m];
       _MODEL_CACHE := <[model_name := length (objects w)]> (_MODEL_CACHE w);
       get_model_calls := get_model_calls w ++ [model_name] |} w').
  { subst w'. unfold separate_stems.
    rewrite bind_run. unfold lift at 1. rewrite Hmkdir.
    rewrite bind_run, (get_demucs_model_miss _ _ _ Hnone Hget).
    apply after_lookup_keeps_registry. }
  destruct Hkeep as (Hc & Hl & Ho). rewrite Hc, Hl, Ho. simpl.
  repeat split. rewrite length_app. simpl. lia.
Qed.

(** A request that reaches [model.eval()] leaves the cached object bound to
    the device it asked for. *)
Lemma separate_stems_rebinds
  (audio_path output_dir model_name device : string) (ref : nat)
  (m : model_object) (w : world) :
  _MODEL_CACHE w !! model_name = Some ref ->
  objects w !! ref = Some m ->
  mkdir output_dir = Ok tt ->
  to_device m device = Ok tt ->
  objects (snd (separate audio_path output_dir model_name device w))
  = alter with_eval ref (alter (with_device device) ref (objects w)).
Proof.
  intros Hhit Hobj Hmkdir Hto. unfold separate_stems.
  rewrite bind_run. unfold lift at 1. rewrite Hmkdir.
  rewrite bind_run, (get_demucs_model_hit _ _ _ Hhit).
  rewrite bind_run. unfold model_to at 1.
  rewrite bind_run. unfold deref at 1. rewrite Hobj.
  rewrite bind_run. unfold lift at 1. rewrite Hto.
  unfold update at 1. rewrite bind_run. unfold model_eval, update at 1.
  now rewrite inference_keeps_world.
Qed.

(** C2 (amended). The cache is keyed by the model name alone: a request for a
    cached name, whatever its device selector, leaves the cache and the load
    log as they were and allocates no object, so it uses the one cached
    instance; and when the transfer succeeds, that instance ends up bound to
    the device of this request. *)
Theorem cached_model_shared_across_devices
  (audio_path output_dir model_name device : string) (ref : nat)
  (m : model_object) (w : world) :
  _MODEL_CACHE w !! model_name = Some ref ->
  objects w !! ref = Some m ->
  mkdir output_dir = Ok tt ->
  to_device m device = Ok tt ->
  let w' := snd (separate audio_path output_dir model_name device w) in
  lookup_model model_name w = (Ok ref, w) /\
  _MODEL_CACHE w' = _MODEL_CACHE w /\
  get_model_calls w' = get_model_calls w /\
  length (objects w') = length (objects w) /\
  Demucs.device <$> objects w' !! ref = Some device.
Proof.
  intros Hhit Hobj Hmkdir Hto w'.
  destruct (separate_stems_hit audio_path output_dir model_name device
              ref w Hhit) as (Hc & Hl & Ho).
  split; [now apply get_demucs_model_hit|].
  repeat split; try assumption.
  subst w'. rewrite (separate_stems_rebinds _ _ _ _ _ _ _ Hhit Hobj Hmkdir Hto).
  rewrite !list_lookup_alter, Hobj.
  repeat case_decide; try congruence. reflexivity.
Qed.

(** Updating the object that was appended last. *)
Lemma alter_last (f : model_object -> model_object)
  (l : list model_object) (x : model_object) :
  alter f (length l) (l ++ [x]) = l ++ [f x].
Proof.
  rewrite <- (Nat.add_0_r (length l)) at 1. now rewrite alter_app_r.
Qed.

(** After the cache lookup the object store differs at the looked-up
    reference only, where the object has been moved to the device and put in
    [eval] mode; it is untouched when the device transfer raised. *)
Lemma after_lookup_objects (ref : nat) (m : model_object)
  (audio_path output_dir device : string) (w : world) :
  objects w !! ref = Some m ->
  objects
    (snd ((_ ← model_to to_device ref device;
           _ ← model_eval ref;
           m ← deref ref;
           '(audio, sr) ← lift (load audio_path (samplerate m) false);
           stems ← lift (apply_model m audio device);
           lift (write_stems sf_write output_dir (samplerate m) stems
                   (imap (fun i name => (i, name)) (sources m)) ∅)) w))
  = match to_device m device with
    | Ok _ => alter with_eval ref (alter (with_device device) ref (objects w))
    | Raise _ => objects w
    end.
Proof.
  intros Hobj.
  rewrite bind_run. unfold model_to at 1.
  rewrite bind_run. unfold deref at 1. rewrite Hobj.
  rewrite bind_run. unfold lift at 1.
  destruct (to_device m device) as [[]|e]; [|reflexivity].
  unfold update at 1. rewrite bind_run. unfold model_eval, update at 1.
  now rewrite inference_keeps_world.
Qed.

(** The object store after a request for a cached model name: no object is
    added, and only the cached one can have changed. *)
Lemma separate_stems_hit_objects
  (audio_path output_dir model_name device : string) (ref : nat)
  (m : model_object) (w : world) :
  _MODEL_CACHE w !! model_name = Some ref ->
  objects w !! ref = Some m ->
  objects (snd (separate audio_path output_dir model_name device w))
  = match mkdir output_dir, to_device m device with
    | Ok _, Ok _ =>
        alter with_eval ref (alter (with_device device) ref (objects w))
    | _, _ => objects w
    end.
Proof.
  intros Hhit Hobj. unfold separate_stems.
  rewrite bind_run. unfold lift at 1.
  destruct (mkdir output_dir) as [[]|e]; [|reflexivity].
  rewrite bind_run, (get_demucs_model_hit _ _ _ Hhit).
  now rewrite (after_lookup_objects _ _ _ _ _ _ Hobj).
Qed.

(** The object store after a request that loads the model: the loaded object
    is appended, moved to the device and put in [eval] mode, or as
    [get_model] returned it when the device transfer raised. *)
Lemma separate_stems_miss_objects
  (audio_path output_dir model_name device : string) (m : model_object)
  (w : world) :
  _MODEL_CACHE w !! model_name = None ->
  mkdir output_dir = Ok tt ->
  get_model model_name = Ok m ->
  objects (snd (separate audio_path output_dir model_name device w))
  = objects w ++ [match to_device m device with
                  | Ok _ => with_eval (with_device device m)
                  | Raise _ => m
                  end].
Proof.
  intros Hnone Hmkdir Hget. unfold separate_stems.
  rewrite bind_run. unfold lift at 1. rewrite Hmkdir.
  rewrite bind_run, (get_demucs_model_miss _ _ _ Hnone Hget).
  rewrite (after_lookup_objects (length (objects w)) m);
    [|now apply list_lookup_middle].
  cbn [objects].
  destruct (to_device m device); [|reflexivity].
  now rewrite !alter_last.
Qed.

(** C6. When a first [separate_stems] call finds the model name uncached and
    loads it, the object [m] that [get_model] returned is stored under a new
    reference [ref] and cached under the model name. A second call for the
    same model name and device gets that same reference from
    [_get_demucs_model], which leaves the state untouched: the reference
    still points to the object of the first call (up to the in-place
    [model.to(device)] and [model.eval()] of each call), the second call
    adds no object to the store, and over the two calls [get_model] has been
    called exactly once. *)
Theorem second_call_hits_cache
  (audio_path1 output_dir1 audio_path2 output_dir2 model_name device : string)
  (m : model_object) (w : world) :
  _MODEL_CACHE w !! model_name = None ->
  mkdir output_dir1 = Ok tt ->
  get_model model_name = Ok m ->
  let w1 := snd (separate audio_path1 output_dir1 model_name device w) in
  let w2 := snd (separate audio_path2 output_dir2 model_name device w1) in
  let ref := length (objects w) in
  let m1 :=
    match to_device m device with
    | Ok _ => with_eval (with_device device m)
    | Raise _ => m
    end in
  let m2 :=
    match mkdir output_dir2, to_device m1 device with
    | Ok _, Ok _ => with_eval (with_device device m1)
    | _, _ => m1
    end in
  objects w1 = objects w ++ [m1] /\
  _MODEL_CACHE w1 !! model_name = Some ref /\
  lookup_model model_name w1 = (Ok ref, w1) /\
  objects w1 !! ref = Some m1 /\
  objects w2 = objects w ++ [m2] /\
  objects w2 !! ref = Some m2 /\
  _MODEL_CACHE w2 !! model_name = Some ref /\
  get_model_calls w1 = get_model_calls w ++ [model_name] /\
  get_model_calls w2 = get_model_calls w ++ [model_name].
Proof.
  intros Hnone Hmkdir Hget w1 w2 ref m1 m2.
  destruct (separate_stems_miss audio_path1 output_dir1 model_name device
              m w Hnone Hmkdir Hget) as (Hc1 & Hl1 & _).
  fold w1 in Hc1, Hl1.
  assert (Hhit : _MODEL_CACHE w1 !! model_name = Some ref).
  { rewrite Hc1. apply lookup_insert_eq. }
  destruct (separate_stems_hit audio_path2 output_dir2 model_name device
              _ w1 Hhit) as (Hc2 & Hl2 & _).
  fold w2 in Hc2, Hl2.
  assert (Ho1 : objects w1 = objects w ++ [m1])
    by exact (separate_stems_miss_objects audio_path1 output_dir1 model_name
                device m w Hnone Hmkdir Hget).
  assert (Hobj1 : objects w1 !! ref = Some m1).
  { rewrite Ho1. now apply list_lookup_middle. }
  assert (Ho2 : objects w2 = objects w ++ [m2]).
  { subst w2.
    rewrite (separate_stems_hit_objects audio_path2 output_dir2 model_name
               device ref m1 w1 Hhit Hobj1).
    subst m2. rewrite Ho1.
    destruct (mkdir output_dir2); [|reflexivity].
    destruct (to_device m1 device); [|reflexivity].
    subst ref. now rewrite !alter_last. }
  split; [exact Ho1|]. split; [exact Hhit|].
  split; [now apply get_demucs_model_hit|]. split; [exact Hobj1|].
  split; [exact Ho2|].
  split; [rewrite Ho2; now apply list_lookup_middle|].
  split; [now rewrite Hc2|]. split; [exact Hl1 | now rewrite Hl2].
Qed.

End separate_stems_facts.

(** One cache entry and one model object serve the CPU request and the CUDA
    request, and the object's device is rewritten from ["cpu"] to ["cuda"] by
    the second request. *)
Lemma model_cache_ignores_device :
  _MODEL_CACHE DemucsExamples.after_cpu !! "htdemucs"%string = Some 0%nat /\
  _MODEL_CACHE DemucsExamples.after_cuda !! "htdemucs"%string = Some 0%nat /\
  size (_MODEL_CACHE DemucsExamples.after_cuda) = 1%nat /\
  length (objects DemucsExamples.after_cuda) = 1%nat /\
  get_model_calls DemucsExamples.after_cuda = ["htdemucs"%string] /\
  device <$> objects DemucsExamples.after_cpu !! 0%nat = Some "cpu"%string /\
  device <$> objects DemucsExamples.after_cuda !! 0%nat = Some "cuda"%string.
Proof. vm_compute. repeat split. Qed.

Lemma cached_model_shared_across_devices_witness :
  let w' := DemucsExamples.after_cuda in
  _get_demucs_model DemucsExamples.get_model "htdemucs" DemucsExamples.after_cpu
  = (Ok 0%nat, DemucsExamples.after_cpu) /\
  _MODEL_CACHE w' = _MODEL_CACHE DemucsExamples.after_cpu /\
  get_model_calls w' = get_model_calls DemucsExamples.after_cpu /\
  length (objects w') = length (objects DemucsExamples.after_cpu) /\
  device <$> objects w' !! 0%nat = Some "cuda"%string.
Proof.
  apply (cached_model_shared_across_devices
           DemucsExamples.get_model DemucsExamples.to_device
           DemucsExamples.mkdir DemucsExamples.load
           DemucsExamples.apply_model DemucsExamples.sf_write
           "song.wav" "out" "htdemucs" "cuda" 0
           (with_eval DemucsExamples.htdemucs) DemucsExamples.after_cpu);
    vm_compute; reflexivity.
Defined.

Lemma second_call_hits_cache_witness :
  let w := DemucsExamples.after_cpu in
  let w1 := snd (DemucsExamples.separate "song.wav" "out" "mdx_extra" "cuda" w) in
  let w2 := snd (DemucsExamples.separate "live.wav" "out2" "mdx_extra" "cuda" w1) in
  let m1 := with_eval (with_device "cuda" DemucsExamples.htdemucs) in
  let m2 := with_eval (with_device "cuda" m1) in
  objects w1 = objects w ++ [m1] /\
  _MODEL_CACHE w1 !! "mdx_extra"%string = Some 1%nat /\
  _get_demucs_model DemucsExamples.get_model "mdx_extra" w1 = (Ok 1%nat, w1) /\
  objects w1 !! 1%nat = Some m1 /\
  objects w2 = objects w ++ [m2] /\
  objects w2 !! 1%nat = Some m2 /\
  _MODEL_CACHE w2 !! "mdx_extra"%string = Some 1%nat /\
  get_model_calls w1 = get_model_calls w ++ ["mdx_extra"%string] /\
  get_model_calls w2 = get_model_calls w ++ ["mdx_extra"%string].
Proof.
  apply (second_call_hits_cache
           DemucsExamples.get_model DemucsExamples.to_device
           DemucsExamples.mkdir DemucsExamples.load
           DemucsExamples.apply_model DemucsExamples.sf_write
           "song.wav" "out" "live.wav" "out2" "mdx_extra" "cuda"
           DemucsExamples.htdemucs DemucsExamples.after_cpu);
    reflexivity.
Defined.

End DemucsFacts.

(** ** More about the waveform preview and audio loading *)

Module AudioIOMore.
Import Numpy AudioIO ResultFacts NumpyFacts AudioIOFacts.

Lemma chunks_spec (k n : nat) (v : list Q) :
  (n * k <= length v)%nat ->
  Forall (fun c => length c = k /\ forall x, In x c -> In x v) (chunks k n v).
Proof.
  revert v. induction n as [|n IH]; intros v Hlen; simpl; [constructor|].
  constructor.
  - split.
    + rewrite length_firstn. simpl in Hlen. lia.
    + intros x Hx. rewrite <- (firstn_skipn k v).
      apply in_or_app. now left.
  - assert (Hrest : (n * k <= length (skipn k v))%nat).
    { rewrite length_skipn. simpl in Hlen. lia. }
    specialize (IH _ Hrest).
    eapply Forall_impl; [exact IH|].
    intros c (Hc & Hin). split; [exact Hc|].
    intros x Hx. rewrite <- (firstn_skipn k v).
    apply in_or_app. right. now apply Hin.
Qed.

Lemma Qsum_within (lo hi : Q) (v : list Q) :
  within lo hi v ->
  (inject_Z (Z.of_nat (length v)) * lo <= Qsum v /\
   Qsum v <= inject_Z (Z.of_nat (length v)) * hi)%Q.
Proof.
  induction 1 as [|x v (Hlo & Hhi) _ (IHlo & IHhi)].
  - change (0 * lo <= 0 /\ 0 <= 0 * hi)%Q. split; lra.
  - cbn [length Qsum fold_right].
    assert (E : (inject_Z (Z.of_nat (S (length v)))
                 == inject_Z (Z.of_nat (length v)) + 1)%Q).
    { rewrite Nat2Z.inj_succ. unfold Z.succ. now rewrite inject_Z_plus. }
    rewrite E. fold (Qsum v). split; lra.
Qed.

Lemma mean_within (lo hi : Q) (v : list Q) :
  within lo hi v -> v <> [] -> (lo <= mean v <= hi)%Q.
Proof.
  intros Hv Hne. destruct (Qsum_within lo hi v Hv) as (Hlo & Hhi).
  assert (Hpos : (0 < inject_Z (Z.of_nat (length v)))%Q).
  { change 0%Q with (inject_Z 0). rewrite <- Zlt_Qlt.
    destruct v; [congruence | simpl; lia]. }
  unfold mean. split.
  - apply Qle_shift_div_l; [exact Hpos|]. lra.
  - apply Qle_shift_div_r; [exact Hpos|]. lra.
Qed.

(** The preview on the chunked path, with the chunk size and the number of
    points as natural numbers. *)
Lemma waveform_preview_chunked (audio : ndarray2) (max_points : Z) :
  1 <= max_points ->
  max_points < Z.of_nat (shape1 audio) ->
  let samples := Z.of_nat (shape1 audio) in
  let cs := Z.to_nat (samples / max_points) in
  let ap := Z.to_nat (samples / (samples / max_points)) in
  waveform_preview audio max_points
  = Ok {| rows := map (fun row => map mean (chunks cs ap (firstn (ap * cs) row)))
                      (rows audio);
          shape1 := ap |} /\
  (1 <= cs)%nat /\ (ap * cs <= shape1 audio)%nat.
Proof.
  intros Hmax Hgt samples cs ap. unfold waveform_preview. fold samples.
  destruct (Z.leb_spec samples max_points) as [Hle|_]; [lia|].
  destruct (Z.eqb_spec max_points 0) as [->|_]; [lia|].
  assert (Hcs : 1 <= samples / max_points)
    by (apply Z.div_le_lower_bound; lia).
  destruct (Z.eqb_spec (samples / max_points) 0) as [E|_]; [lia|].
  assert (Hap : 0 <= samples / (samples / max_points))
    by (apply Z.div_pos; lia).
  destruct (Z.ltb_spec (samples / max_points) 0); [lia|].
  destruct (Z.ltb_spec (samples / (samples / max_points)) 0); [lia|].
  cbn [orb]. fold cs ap. split; [|split].
  - unfold slice_cols. cbn [rows]. now rewrite !map_map.
  - unfold cs. lia.
  - assert (Hprod : samples / (samples / max_points) * (samples / max_points)
                    <= samples).
    { rewrite Z.mul_comm. apply Z.mul_div_le. lia. }
    unfold ap, cs. unfold samples in *. nia.
Qed.

(** X1. For [max_points >= 1] the preview never raises, and it has as many
    points as samples when these do not exceed [max_points], and
    [samples // (samples // max_points)] points otherwise. *)
Theorem waveform_preview_point_count (audio : ndarray2) (max_points : Z) :
  1 <= max_points ->
  exists preview,
    waveform_preview audio max_points = Ok preview /\
    Z.of_nat (points preview)
    = if Z.of_nat (shape1 audio) <=? max_points
      then Z.of_nat (shape1 audio)
      else Z.of_nat (shape1 audio) / (Z.of_nat (shape1 audio) / max_points).
Proof.
  intros Hmax.
  destruct (waveform_preview_points audio max_points Hmax) as (p & Hp & Hn).
  exists p. split; [exact Hp | exact Hn].
Qed.

Lemma waveform_preview_point_count_witness :
  exists preview,
    waveform_preview AudioIOExamples.seven_samples 3 = Ok preview /\
    Z.of_nat (points preview) = 3.
Proof.
  exact (waveform_preview_point_count AudioIOExamples.seven_samples 3
           ltac:(reflexivity || discriminate)).
Defined.

(** X2. For [max_points >= 1] a returned preview has fewer than
    [2 * max_points] points and never more points than the buffer has
    samples. *)
Theorem waveform_preview_points_bounds
  (audio preview : ndarray2) (max_points : Z) :
  1 <= max_points ->
  waveform_preview audio max_points = Ok preview ->
  Z.of_nat (points preview) < 2 * max_points /\
  (points preview <= shape1 audio)%nat.
Proof.
  intros Hmax Hrun. split.
  - exact (waveform_preview_points_lt_double audio preview max_points Hmax Hrun).
  - destruct (Z.leb_spec (Z.of_nat (shape1 audio)) max_points) as [Hle|Hgt].
    + unfold waveform_preview in Hrun.
      destruct (Z.leb_spec (Z.of_nat (shape1 audio)) max_points); [|lia].
      injection Hrun as <-. unfold points. lia.
    + destruct (waveform_preview_chunked audio max_points Hmax Hgt)
        as (Hp & Hcs & Hprod).
      rewrite Hrun in Hp. injection Hp as ->. unfold points. cbn [shape1].
      nia.
Qed.

Lemma waveform_preview_points_bounds_witness :
  exists preview,
    waveform_preview AudioIOExamples.seven_samples 4 = Ok preview /\
    Z.of_nat (points preview) < 2 * 4 /\
    (points preview <= 7)%nat.
Proof.
  eexists. split; [reflexivity|].
  apply (waveform_preview_points_bounds AudioIOExamples.seven_samples _ 4);
    [lia | reflexivity].
Defined.

(** X3. For [max_points >= 1] the preview is empty exactly when the buffer
    has no samples. *)
Theorem waveform_preview_empty_iff
  (audio preview : ndarray2) (max_points : Z) :
  1 <= max_points ->
  waveform_preview audio max_points = Ok preview ->
  (points preview = 0%nat <-> shape1 audio = 0%nat).
Proof.
  intros Hmax Hrun. split.
  - exact (waveform_preview_points_zero audio preview max_points Hmax Hrun).
  - intros Hz. unfold waveform_preview in Hrun. rewrite Hz in Hrun.
    destruct (Z.leb_spec (Z.of_nat 0) max_points); [|simpl in *; lia].
    injection Hrun as <-. exact Hz.
Qed.

Lemma waveform_preview_empty_iff_witness :
  exists preview,
    waveform_preview (of_rows [[]; []]) 4096 = Ok preview /\
    (points preview = 0%nat <-> shape1 (of_rows [[]; []]) = 0%nat).
Proof.
  eexists. split; [reflexivity|].
  apply (waveform_preview_empty_iff (of_rows [[]; []]) _ 4096);
    [lia | reflexivity].
Defined.

(** X4. [waveform_preview] raises exactly when the buffer has samples and
    [max_points] is not positive: [ZeroDivisionError] for [0], [ValueError]
    below. *)
Theorem waveform_preview_raises_iff (audio : ndarray2) (max_points : Z) :
  match waveform_preview audio max_points with
  | Ok _ => max_points >= 1 \/ shape1 audio = 0%nat
  | Raise e =>
      (0 < shape1 audio)%nat /\
      ((max_points = 0 /\ e = ZeroDivisionError) \/
       (max_points < 0 /\ e = ValueError))
  end.
Proof.
  destruct (Z_le_gt_dec 1 max_points) as [Hmax|Hmax].
  - destruct (waveform_preview_points audio max_points Hmax) as (p & -> & _).
    left. lia.
  - unfold waveform_preview.
    destruct (Z.leb_spec (Z.of_nat (shape1 audio)) max_points) as [Hle|Hgt].
    + right. lia.
    + destruct (Z.eqb_spec max_points 0) as [->|Hne].
      * split; [lia|]. now left.
      * destruct (Nat.eq_dec (shape1 audio) 0%nat) as [Hz|Hnz].
        -- rewrite Hz. simpl. right. reflexivity.
        -- assert (Hneg : Z.of_nat (shape1 audio) / max_points < 0).
           { assert (Hmod := Z.mod_neg_bound (Z.of_nat (shape1 audio))
                               max_points ltac:(lia)).
             assert (Hdiv := Z_div_mod_eq_full (Z.of_nat (shape1 audio))
                               max_points).
             nia. }
           destruct (Z.eqb_spec (Z.of_nat (shape1 audio) / max_points) 0);
             [lia|].
           destruct (Z.ltb_spec (Z.of_nat (shape1 audio) / max_points) 0);
             [|lia].
           cbn [orb]. split; [lia|]. right. split; [lia | reflexivity].
Qed.

Lemma waveform_preview_rows (audio preview : ndarray2) (max_points : Z)
  (P : list Q -> list Q -> Prop) :
  1 <= max_points ->
  wf_ndarray2 audio ->
  waveform_preview audio max_points = Ok preview ->
  (preview = audio -> forall row, length row = shape1 audio -> P row row) ->
  (forall row cs ap,
      length row = shape1 audio -> (1 <= cs)%nat ->
      (ap * cs <= shape1 audio)%nat -> shape1 preview = ap ->
      P row (map mean (chunks cs ap (firstn (ap * cs) row)))) ->
  shape0 preview = shape0 audio /\
  Forall2 P (rows audio) (rows preview).
Proof.
  intros Hmax Hwf Hrun Hsame Hchunk.
  destruct (Z.leb_spec (Z.of_nat (shape1 audio)) max_points) as [Hle|Hgt].
  - unfold waveform_preview in Hrun.
    destruct (Z.leb_spec (Z.of_nat (shape1 audio)) max_points); [|lia].
    injection Hrun as <-. split; [reflexivity|].
    apply Forall2_same_length_lookup. split; [reflexivity|].
    intros i row row' Hi Hi'. rewrite Hi in Hi'. injection Hi' as <-.
    apply Hsame; [reflexivity|].
    unfold wf_ndarray2 in Hwf. rewrite Forall_lookup in Hwf.
    exact (Hwf _ _ Hi).
  - destruct (waveform_preview_chunked audio max_points Hmax Hgt)
      as (Hp & Hcs & Hprod).
    rewrite Hrun in Hp. injection Hp as ->. split.
    + unfold shape0. cbn [rows]. now rewrite length_map.
    + cbn [rows]. apply Forall2_fmap_r.
      apply Forall2_same_length_lookup. split; [reflexivity|].
      intros i row row' Hi Hi'. rewrite Hi in Hi'. injection Hi' as <-.
      apply Hchunk; try assumption; [|reflexivity].
      unfold wf_ndarray2 in Hwf. rewrite Forall_lookup in Hwf.
      exact (Hwf _ _ Hi).
Qed.

Lemma preview_rectangular (audio preview : ndarray2) (max_points : Z) :
  1 <= max_points ->
  wf_ndarray2 audio ->
  waveform_preview audio max_points = Ok preview ->
  shape0 preview = shape0 audio /\ wf_ndarray2 preview.
Proof.
  intros Hmax Hwf Hrun.
  destruct (waveform_preview_rows audio preview max_points
              (fun _ row' => length row' = shape1 preview)
              Hmax Hwf Hrun) as (H0 & Hrows).
  - intros -> row Hrow. exact Hrow.
  - intros row cs ap Hrow Hcs Hprod Hap.
    now rewrite length_map, chunks_length.
  - split; [exact H0|]. unfold wf_ndarray2.
    apply Forall_lookup. intros i row' Hi.
    destruct (Forall2_lookup_r _ _ _ _ _ Hrows Hi) as (row & _ & Hlen).
    exact Hlen.
Qed.

(** X5. For [max_points >= 1] and a rectangular buffer the preview has the
    channels of the buffer, and every channel of the preview has exactly
    [points] values. *)
Theorem waveform_preview_shape (audio preview : ndarray2) (max_points : Z) :
  1 <= max_points ->
  wf_ndarray2 audio ->
  waveform_preview audio max_points = Ok preview ->
  shape0 preview = shape0 audio /\ wf_ndarray2 preview.
Proof. exact (preview_rectangular audio preview max_points). Qed.

Lemma waveform_preview_shape_witness :
  exists preview,
    waveform_preview AudioIOExamples.seven_samples 3 = Ok preview /\
    shape0 preview = 1%nat /\ wf_ndarray2 preview.
Proof.
  eexists. split; [reflexivity|].
  apply (waveform_preview_shape AudioIOExamples.seven_samples _ 3).
  - lia.
  - repeat constructor.
  - reflexivity.
Defined.

Lemma chunk_means_within (lo hi : Q) (row : list Q) (cs ap : nat) :
  within lo hi row ->
  (1 <= cs)%nat ->
  (ap * cs <= length row)%nat ->
  within lo hi (map mean (chunks cs ap (firstn (ap * cs) row))).
Proof.
  intros Hrow Hcs Hprod.
  assert (Hlen : (ap * cs <= length (firstn (ap * cs) row))%nat).
  { rewrite length_firstn. lia. }
  pose proof (chunks_spec cs ap _ Hlen) as Hchunks.
  unfold within. apply List.Forall_forall. intros y Hy.
  apply in_map_iff in Hy as (c & <- & Hc).
  rewrite List.Forall_forall in Hchunks.
  destruct (Hchunks c Hc) as (Hclen & Hcin).
  apply mean_within.
  - unfold within. apply List.Forall_forall. intros x Hx.
    unfold within in Hrow. rewrite List.Forall_forall in Hrow.
    apply Hrow. rewrite <- (firstn_skipn (ap * cs) row).
    apply in_or_app. left. now apply Hcin.
  - destruct c; [simpl in Hclen; lia | discriminate].
Qed.

Lemma preview_within
  (lo hi : Q) (audio preview : ndarray2) (max_points : Z) :
  1 <= max_points ->
  wf_ndarray2 audio ->
  Forall (within lo hi) (rows audio) ->
  waveform_preview audio max_points = Ok preview ->
  Forall (within lo hi) (rows preview).
Proof.
  intros Hmax Hwf Hrange Hrun.
  destruct (waveform_preview_rows audio preview max_points
              (fun row row' => within lo hi row -> within lo hi row')
              Hmax Hwf Hrun) as (_ & Hrows).
  - intros _ row _ Hrow. exact Hrow.
  - intros row cs ap Hlen Hcs Hprod _ Hrow.
    apply chunk_means_within; [exact Hrow | exact Hcs | lia].
  - apply Forall_lookup. intros i row' Hi.
    destruct (Forall2_lookup_r _ _ _ _ _ Hrows Hi) as (row & Hrow & HP).
    apply HP. rewrite Forall_lookup in Hrange. exact (Hrange _ _ Hrow).
Qed.

Section load_audio_more.

Variable sf_read : string -> result (ndarray2 * Z).
Variable librosa_load : string -> result (ndarray * Z).
Variable librosa_resample : list Q -> Z -> Z -> result (list Q).

Local Abbreviation decode := (load_audio_decode sf_read librosa_load).
Local Abbreviation load :=
  (load_audio sf_read librosa_load librosa_resample).

Lemma transpose_wf (a : ndarray2) : wf_ndarray2 (transpose a).
Proof. exact (transpose_rows_length a). Qed.

Lemma stack_wf (vs : list (list Q)) (a : ndarray2) :
  stack vs = Ok a -> wf_ndarray2 a.
Proof.
  unfold stack. destruct vs as [|v rest]; [discriminate|].
  destruct (forallb _ rest) eqn:Hall; [|discriminate].
  injection 1 as <-. unfold wf_ndarray2. cbn [rows shape1].
  constructor; [reflexivity|].
  apply List.Forall_forall. intros v' Hv'.
  rewrite forallb_forall in Hall. specialize (Hall v' Hv').
  now apply Nat.eqb_eq in Hall.
Qed.

Lemma decode_wf (path : string) (decoded : ndarray2) (file_sr : Z) :
  (forall a sr, librosa_load path = Ok (Arr2 a, sr) -> wf_ndarray2 a) ->
  decode path = Ok (decoded, file_sr) ->
  wf_ndarray2 decoded.
Proof.
  intros Hlib. unfold load_audio_decode.
  destruct (sf_read path) as [[a sr]|[c|c]]; simpl.
  - injection 1 as <- _. apply transpose_wf.
  - destruct (librosa_load path) as [[[v|a] sr]|e] eqn:Hl; simpl;
      try discriminate.
    + injection 1 as <- _. unfold wf_ndarray2, newaxis. cbn [rows shape1].
      now constructor.
    + injection 1 as <- _. eapply Hlib. reflexivity.
  - discriminate.
Qed.

(** X7. Whenever [load_audio] returns a buffer, all its channels have the
    same number of samples, provided a two-dimensional array delivered by the
    fallback decoder is rectangular. *)
Theorem load_audio_rectangular
  (path : string) (target_sr : Z) (mono : bool) (audio : ndarray2) (sr : Z) :
  (forall a file_sr,
      librosa_load path = Ok (Arr2 a, file_sr) -> wf_ndarray2 a) ->
  load path target_sr mono = Ok (audio, sr) ->
  wf_ndarray2 audio.
Proof.
  intros Hlib Hload. unfold load_audio in Hload.
  destruct (decode path) as [[decoded file_sr]|e] eqn:Hdec;
    simpl in Hload; [|discriminate].
  pose proof (decode_wf path decoded file_sr Hlib Hdec) as Hwf.
  set (mixed := if mono && (1 <? shape0 decoded)%nat
                then mean_axis0_keepdims decoded else decoded) in *.
  assert (Hmixed : wf_ndarray2 mixed).
  { unfold mixed. destruct (mono && (1 <? shape0 decoded)%nat); [|exact Hwf].
    unfold wf_ndarray2, mean_axis0_keepdims. cbn [rows shape1].
    constructor; [|constructor]. now rewrite length_map, length_seq. }
  destruct (Z.eqb_spec file_sr target_sr) as [->|Hne]; simpl in Hload.
  - now injection Hload as <- _.
  - destruct (mapM _ (rows mixed)) as [resampled|e];
      simpl in Hload; [|discriminate].
    destruct (stack resampled) as [stacked|e] eqn:Hstack;
      simpl in Hload; [|discriminate].
    injection Hload as <- _. exact (stack_wf _ _ Hstack).
Qed.

(** X8. On a file the decoder delivers with a single channel (or none) the
    [mono] flag makes no difference. *)
Theorem load_audio_mono_of_mono_file
  (path : string) (target_sr : Z) (decoded : ndarray2) (file_sr : Z) :
  decode path = Ok (decoded, file_sr) ->
  (shape0 decoded <= 1)%nat ->
  load path target_sr true = load path target_sr false.
Proof.
  intros Hdec Hch. unfold load_audio. rewrite Hdec. simpl.
  destruct (Nat.ltb_spec 1 (shape0 decoded)); [lia | reflexivity].
Qed.

End load_audio_more.

Lemma load_audio_rectangular_witness :
  exists audio,
    load_audio AudioIOExamples.sf_read_stereo AudioIOExamples.librosa_load_mono
      AudioIOExamples.resample_repeat "track.wav" 44100 false
    = Ok (audio, 44100) /\
    wf_ndarray2 audio /\ shape0 audio = 2%nat /\ shape1 audio = 6%nat.
Proof.
  eexists. split; [vm_compute; reflexivity|].
  split; [|split; reflexivity].
  apply (load_audio_rectangular
           AudioIOExamples.sf_read_stereo AudioIOExamples.librosa_load_mono
           AudioIOExamples.resample_repeat "track.wav" 44100 false _ 44100).
  - intros a file_sr H. discriminate H.
  - vm_compute. reflexivity.
Defined.

Lemma load_audio_mono_of_mono_file_witness :
  load_audio AudioIOExamples.sf_read_unsupported
    AudioIOExamples.librosa_load_mono AudioIOExamples.resample_repeat
    "track.m4a" 44100 true
  = load_audio AudioIOExamples.sf_read_unsupported
      AudioIOExamples.librosa_load_mono AudioIOExamples.resample_repeat
      "track.m4a" 44100 false.
Proof.
  apply (load_audio_mono_of_mono_file
           AudioIOExamples.sf_read_unsupported
           AudioIOExamples.librosa_load_mono AudioIOExamples.resample_repeat
           "track.m4a" 44100 (newaxis [1; 2; 3]%Q) 22050).
  - reflexivity.
  - vm_compute. lia.
Defined.

Section get_duration_more.

Variable sf_info : string -> result (Z * Z).

(** X9. When the file header can be read, [get_duration_seconds] returns
    without raising: zero for a sample rate that is not positive, otherwise
    the number [d] with [d * samplerate = frames]; the result is never
    negative for a non-negative frame count. *)
Theorem get_duration_seconds_spec (path : string) (frames samplerate : Z) :
  sf_info path = Ok (frames, samplerate) ->
  exists d,
    get_duration_seconds sf_info path = Ok d /\
    (samplerate <= 0 -> d = 0%Q) /\
    (0 < samplerate -> (d * inject_Z samplerate == inject_Z frames)%Q) /\
    (0 <= frames -> (0 <= d)%Q).
Proof.
  intros Hinfo. unfold get_duration_seconds. rewrite Hinfo. simpl.
  destruct (Z.leb_spec samplerate 0) as [Hle|Hgt]; simpl.
  - exists 0%Q. repeat split; try lia. intros _. apply Qle_refl.
  - eexists. split; [reflexivity|].
    assert (Hpos : (0 < inject_Z samplerate)%Q).
    { change 0%Q with (inject_Z 0). now rewrite <- Zlt_Qlt. }
    repeat split.
    + lia.
    + intros _. field. intros E. rewrite E in Hpos. now apply Qlt_irrefl in Hpos.
    + intros Hf. apply Qle_shift_div_l; [exact Hpos|].
      rewrite Qmult_0_l. change 0%Q with (inject_Z 0). now rewrite <- Zle_Qle.
Qed.

End get_duration_more.

Lemma get_duration_seconds_spec_witness :
  exists d,
    get_duration_seconds (fun _ => Ok (88200, 44100)) "track.wav" = Ok d /\
    (44100 <= 0 -> d = 0%Q) /\
    (0 < 44100 -> (d * inject_Z 44100 == inject_Z 88200)%Q) /\
    (0 <= 88200 -> (0 <= d)%Q).
Proof.
  apply (get_duration_seconds_spec (fun _ => Ok (88200, 44100))
           "track.wav" 88200 44100).
  reflexivity.
Defined.

End AudioIOMore.

(** ** Facts about the waveform service *)

Module WaveformServiceFacts.
Import Numpy AudioIO WaveformService ResultFacts NumpyFacts AudioIOFacts
  AudioIOMore.

Lemma Qmax2_ge_l (a b : Q) : (a <= Qmax2 a b)%Q.
Proof.
  unfold Qmax2. destruct (Qle_bool a b) eqn:H.
  - now apply Qle_bool_iff.
  - apply Qle_refl.
Qed.

Lemma Qmax2_ge_r (a b : Q) : (b <= Qmax2 a b)%Q.
Proof.
  unfold Qmax2. destruct (Qle_bool a b) eqn:H.
  - apply Qle_refl.
  - destruct (Qlt_le_dec a b) as [Hlt|Hle]; [|exact Hle].
    apply Qlt_le_weak, Qle_bool_iff in Hlt. congruence.
Qed.

Lemma fold_Qmax2_spec (rest : list Q) (x : Q) :
  let m := fold_left Qmax2 rest x in
  (x <= m)%Q /\ Forall (fun y => (y <= m)%Q) rest /\ In m (x :: rest).
Proof.
  revert x. induction rest as [|y rest IH]; intros x; simpl.
  - split; [apply Qle_refl|]. split; [constructor | now left].
  - destruct (IH (Qmax2 x y)) as (Hx & Hrest & Hin).
    split; [eapply Qle_trans; [apply Qmax2_ge_l | exact Hx]|].
    split.
    + constructor; [eapply Qle_trans; [apply Qmax2_ge_r | exact Hx]|].
      exact Hrest.
    + destruct Hin as [Hin|Hin]; [|now right; right].
      rewrite <- Hin. unfold Qmax2. destruct (Qle_bool x y); tauto.
Qed.

Lemma np_max_spec (v : list Q) (m : Q) :
  np_max v = Ok m -> Forall (fun y => (y <= m)%Q) v /\ In m v.
Proof.
  destruct v as [|x rest]; simpl; [discriminate|].
  injection 1 as <-.
  destruct (fold_Qmax2_spec rest x) as (Hx & Hrest & Hin).
  split; [now constructor | exact Hin].
Qed.

Lemma flatten_np_abs (a : ndarray2) :
  flatten (np_abs a) = map Qabs (flatten a).
Proof.
  unfold flatten, np_abs. cbn [rows].
  induction (rows a) as [|row rs IH]; simpl; [reflexivity|].
  now rewrite IH, map_app.
Qed.

Lemma in_flatten (a : ndarray2) (row : list Q) (x : Q) :
  In row (rows a) -> In x row -> In x (flatten a).
Proof.
  intros Hrow Hx. unfold flatten. apply in_concat. eauto.
Qed.

(** Dividing by the largest magnitude (or by one when that is zero) brings
    every sample into [[-1, 1]]. *)
Lemma normalized_within (a : ndarray2) (m : Q) :
  np_max (flatten (np_abs a)) = Ok m ->
  Forall (within (-1) 1) (rows (array_div a (or_one m))).
Proof.
  intros Hmax. rewrite flatten_np_abs in Hmax.
  destruct (np_max_spec _ _ Hmax) as (Hall & Hin).
  apply in_map_iff in Hin as (x0 & Hx0 & _).
  assert (Hm0 : (0 <= m)%Q) by (rewrite <- Hx0; apply Qabs_nonneg).
  assert (Hbound : forall row x, In row (rows a) -> In x row ->
                                 (- m <= x <= m)%Q).
  { intros row x Hrow Hx. apply Qabs_Qle_condition.
    rewrite List.Forall_forall in Hall. apply Hall.
    apply in_map. eapply in_flatten; eauto. }
  unfold array_div. cbn [rows].
  apply List.Forall_forall. intros row' Hrow'.
  apply in_map_iff in Hrow' as (row & <- & Hrow).
  unfold within. apply List.Forall_forall. intros y Hy.
  apply in_map_iff in Hy as (x & <- & Hx).
  destruct (Hbound row x Hrow Hx) as (Hlo & Hhi).
  unfold or_one. destruct (Qeq_bool m 0) eqn:Hz.
  - apply Qeq_bool_iff in Hz. rewrite Hz in Hlo, Hhi.
    assert (E : (x / 1 == x)%Q) by (field; discriminate).
    rewrite E. split; lra.
  - apply Qeq_bool_neq in Hz.
    assert (Hpos : (0 < m)%Q).
    { destruct (Qlt_le_dec 0 m) as [H|H]; [exact H|].
      exfalso. apply Hz. now apply Qle_antisym. }
    split.
    + apply Qle_shift_div_l; [exact Hpos|]. lra.
    + apply Qle_shift_div_r; [exact Hpos|]. lra.
Qed.

Lemma array_div_wf (a : ndarray2) (d : Q) :
  wf_ndarray2 a -> wf_ndarray2 (array_div a d).
Proof.
  unfold wf_ndarray2, array_div. cbn [rows shape1]. intros H.
  apply List.Forall_forall. intros row' Hrow'.
  apply in_map_iff in Hrow' as (row & <- & Hrow).
  rewrite length_map. rewrite List.Forall_forall in H. now apply H.
Qed.

Section generate_waveform_preview_facts.

Variable sf_read : string -> result (ndarray2 * Z).
Variable librosa_load : string -> result (ndarray * Z).
Variable librosa_resample : list Q -> Z -> Z -> result (list Q).

Local Abbreviation load :=
  (load_audio sf_read librosa_load librosa_resample).
Local Abbreviation generate :=
  (generate_waveform_preview sf_read librosa_load librosa_resample).

(** X10. When a rectangular buffer with at least one sample is loaded and
    [max_points >= 1], [generate_waveform_preview] returns: the sample rate
    of the buffer, its channel count, rows of exactly [points] values, and
    only values in [[-1, 1]]. *)
Theorem generate_waveform_preview_normalized
  (audio_path : string) (target_sr max_points : Z)
  (audio : ndarray2) (sr : Z) :
  load audio_path target_sr false = Ok (audio, sr) ->
  wf_ndarray2 audio ->
  flatten audio <> [] ->
  1 <= max_points ->
  exists res,
    generate audio_path target_sr max_points = Ok res /\
    sample_rate res = sr /\
    channels res = shape0 audio /\
    Forall (fun row => length row = WaveformService.points res) (waveform res) /\
    Forall (within (-1) 1) (waveform res).
Proof.
  intros Hload Hwf Hne Hmax. unfold generate_waveform_preview.
  rewrite Hload. simpl.
  destruct (np_max (flatten (np_abs audio))) as [m|e] eqn:Hm.
  2:{ exfalso. rewrite flatten_np_abs in Hm.
      destruct (flatten audio); [congruence | discriminate Hm]. }
  simpl.
  pose proof (array_div_wf audio (or_one m) Hwf) as Hwf'.
  destruct (waveform_preview_points (array_div audio (or_one m))
              max_points Hmax) as (preview & Hprev & _).
  rewrite Hprev. simpl. eexists. split; [reflexivity|]. cbn.
  destruct (preview_rectangular _ _ _ Hmax Hwf' Hprev) as (H0 & Hpwf).
  repeat split.
  - rewrite H0. unfold shape0, array_div. cbn [rows]. apply length_map.
  - exact Hpwf.
  - exact (preview_within _ _ _ _ _ Hmax Hwf'
             (normalized_within audio m Hm) Hprev).
Qed.

(** X11. A silent buffer (every sample zero, at least one sample) yields a
    preview of zeros without any error. *)
Theorem generate_waveform_preview_silence
  (audio_path : string) (target_sr max_points : Z)
  (audio : ndarray2) (sr : Z) :
  load audio_path target_sr false = Ok (audio, sr) ->
  wf_ndarray2 audio ->
  flatten audio <> [] ->
  Forall (Forall (fun x => (x == 0)%Q)) (rows audio) ->
  1 <= max_points ->
  exists res,
    generate audio_path target_sr max_points = Ok res /\
    Forall (Forall (fun x => (x == 0)%Q)) (waveform res).
Proof.
  intros Hload Hwf Hne Hzero Hmax. unfold generate_waveform_preview.
  rewrite Hload. simpl.
  destruct (np_max (flatten (np_abs audio))) as [m|e] eqn:Hm.
  2:{ exfalso. rewrite flatten_np_abs in Hm.
      destruct (flatten audio); [congruence | discriminate Hm]. }
  simpl.
  pose proof (array_div_wf audio (or_one m) Hwf) as Hwf'.
  destruct (waveform_preview_points (array_div audio (or_one m))
              max_points Hmax) as (preview & Hprev & _).
  rewrite Hprev. simpl. eexists. split; [reflexivity|]. cbn.
  assert (Hdiv : Forall (within 0 0) (rows (array_div audio (or_one m)))).
  { unfold array_div. cbn [rows]. apply List.Forall_forall. intros row' Hrow'.
    apply in_map_iff in Hrow' as (row & <- & Hrow).
    unfold within. apply List.Forall_forall. intros y Hy.
    apply in_map_iff in Hy as (x & <- & Hx).
    rewrite List.Forall_forall in Hzero. specialize (Hzero row Hrow).
    rewrite List.Forall_forall in Hzero. specialize (Hzero x Hx).
    unfold Qdiv. rewrite Hzero, Qmult_0_l. split; apply Qle_refl. }
  pose proof (preview_within 0 0 _ _ _ Hmax Hwf' Hdiv Hprev) as Hall.
  eapply Forall_impl; [exact Hall|]. intros row Hrow.
  eapply Forall_impl; [exact Hrow|]. intros y (Hlo & Hhi).
  now apply Qle_antisym.
Qed.

(** X12. A buffer without any sample makes [generate_waveform_preview] raise
    [ValueError]: the maximum of an empty array is undefined. *)
Theorem generate_waveform_preview_empty
  (audio_path : string) (target_sr max_points : Z)
  (audio : ndarray2) (sr : Z) :
  load audio_path target_sr false = Ok (audio, sr) ->
  flatten audio = [] ->
  generate audio_path target_sr max_points = Raise ValueError.
Proof.
  intros Hload Hempty. unfold generate_waveform_preview.
  rewrite Hload. simpl. now rewrite flatten_np_abs, Hempty.
Qed.

End generate_waveform_preview_facts.

Lemma generate_waveform_preview_normalized_witness :
  exists res,
    generate_waveform_preview AudioIOExamples.sf_read_stereo
      AudioIOExamples.librosa_load_mono AudioIOExamples.resample_repeat
      "track.wav" 22050 2 = Ok res /\
    sample_rate res = 22050 /\
    channels res = 2%nat /\
    Forall (fun row => length row = WaveformService.points res) (waveform res) /\
    Forall (within (-1) 1) (waveform res).
Proof.
  apply (generate_waveform_preview_normalized
           AudioIOExamples.sf_read_stereo AudioIOExamples.librosa_load_mono
           AudioIOExamples.resample_repeat "track.wav" 22050 2
           (transpose (of_rows [[1; -1]; [2; -2]; [3; -3]]%Q)) 22050).
  - reflexivity.
  - repeat constructor.
  - discriminate.
  - lia.
Defined.

Lemma generate_waveform_preview_silence_witness :
  exists res,
    generate_waveform_preview
      (fun _ => Ok (of_rows [[0; 0]; [0; 0]; [0; 0]]%Q, 44100))
      AudioIOExamples.librosa_load_mono AudioIOExamples.resample_repeat
      "silence.wav" 44100 4096 = Ok res /\
    Forall (Forall (fun x => (x == 0)%Q)) (waveform res).
Proof.
  apply (generate_waveform_preview_silence
           (fun _ => Ok (of_rows [[0; 0]; [0; 0]; [0; 0]]%Q, 44100))
           AudioIOExamples.librosa_load_mono AudioIOExamples.resample_repeat
           "silence.wav" 44100 4096
           (transpose (of_rows [[0; 0]; [0; 0]; [0; 0]]%Q)) 44100).
  - reflexivity.
  - repeat constructor.
  - discriminate.
  - repeat constructor.
  - lia.
Defined.

Lemma generate_waveform_preview_empty_witness :
  generate_waveform_preview
    (fun _ => Ok ({| rows := []; shape1 := 2 |}, 44100))
    AudioIOExamples.librosa_load_mono AudioIOExamples.resample_repeat
    "empty.wav" 44100 4096 = Raise ValueError.
Proof.
  apply (generate_waveform_preview_empty
           (fun _ => Ok ({| rows := []; shape1 := 2 |}, 44100))
           AudioIOExamples.librosa_load_mono AudioIOExamples.resample_repeat
           "empty.wav" 44100 4096
           (transpose {| rows := []; shape1 := 2 |}) 44100);
    reflexivity.
Defined.

End WaveformServiceFacts.

(** ** More about chord detection *)

Module ChordsMore.
Import Numpy Scan Chords NumpyFacts ScanFacts ResultFacts ChordsFacts.

(** A property every frame's segment has is a property of every segment of
    the frame list. *)
Lemma frame_segments_Forall (P : nat -> segment -> Prop)
  (sr : Z) (chroma : ndarray2) :
  shape0 chroma = 12%nat ->
  (forall i frame_chroma,
      length frame_chroma = 12%nat ->
      exists seg, frame_segment sr i frame_chroma = Ok seg /\ P i seg) ->
  exists segments,
    frame_segments sr chroma = Ok segments /\
    length segments = shape1 chroma /\
    forall i seg, segments !! i = Some seg -> P i seg.
Proof.
  intros H12 Hframe. unfold frame_segments.
  set (frames := rows (transpose chroma)).
  assert (Hlen : Forall (fun fr => length fr = 12%nat) frames).
  { pose proof (transpose_rows_length chroma) as H.
    eapply Forall_impl; [exact H|]. intros fr Hfr. now rewrite Hfr. }
  assert (Hcount : length frames = shape1 chroma).
  { unfold frames, transpose. cbn [rows]. now rewrite length_map, length_seq. }
  rewrite <- Hcount. clearbody frames. clear Hcount.
  assert (Hgen : forall (off : nat),
    exists segments,
      mapM (fun '(i, frame_chroma) => frame_segment sr i frame_chroma)
           (imap (fun i frame_chroma => ((off + i)%nat, frame_chroma)) frames)
      = Ok segments /\
      length segments = length frames /\
      forall i seg, segments !! i = Some seg -> P (off + i)%nat seg).
  { induction Hlen as [|fr frames Hfr _ IH]; intros off.
    - exists []. repeat split. intros i seg Hi. discriminate Hi.
    - destruct (Hframe (off + 0)%nat fr Hfr) as (seg0 & Hseg0 & HP0).
      destruct (IH (S off)) as (segs & Hsegs & Hl & HP).
      exists (seg0 :: segs). cbn [imap mapM]. rewrite Hseg0. simpl.
      assert (E : imap ((fun i frame_chroma => ((off + i)%nat, frame_chroma))
                        ∘ S) frames
                  = imap (fun i frame_chroma => ((S off + i)%nat, frame_chroma))
                      frames).
      { apply imap_ext. intros i x _. simpl. f_equal. lia. }
      rewrite E, Hsegs. simpl. split; [reflexivity|].
      split; [now rewrite Hl|].
      intros [|i] seg Hi.
      + injection Hi as <-. exact HP0.
      + replace (off + S i)%nat with (S off + i)%nat by lia. now apply HP. }
  destruct (Hgen 0%nat) as (segments & Hseg & Hl & HP).
  exists segments. split; [exact Hseg|]. split; [exact Hl|]. exact HP.
Qed.

Lemma py_min2_pos (a b : Q) : (0 < a)%Q -> (0 < b)%Q -> (0 < py_min2 a b)%Q.
Proof. unfold py_min2. now destruct (Qgtb a b). Qed.

Lemma no_chord_not_in_scan_order : ~ In "N"%string scan_order.
Proof.
  unfold scan_order. simpl. intros H.
  repeat (destruct H as [H|H]; [discriminate H|]). exact H.
Qed.

(** What the scan of one frame yields: the frame's own time, and either the
    label ["N"] with confidence zero or one of the 24 chord labels with a
    positive confidence. *)
Lemma frame_segment_outcome (sr : Z) (i : nat) (frame_chroma : list Q) :
  length frame_chroma = 12%nat ->
  exists seg,
    frame_segment sr i frame_chroma = Ok seg /\
    time seg = frame_time sr i /\
    ((chord seg = "N"%string /\ (confidence seg == 0)%Q /\
      Forall (fun c => (snd c <= 0)%Q) (all_candidates frame_chroma)) \/
     (In (chord seg) scan_order /\ (0 < confidence seg)%Q /\
      exists c, In c (all_candidates frame_chroma) /\ (0 < snd c)%Q)).
Proof.
  intros H12. rewrite (frame_segment_Ok sr i _ H12). cbv zeta.
  pose proof (scan_from_no_chord (all_candidates frame_chroma)) as Hscan.
  cbv zeta in Hscan.
  destruct (fold_left (keep_greater snd) (all_candidates frame_chroma) _)
    as [label best_score].
  eexists. split; [reflexivity|]. split; [reflexivity|]. cbn [chord confidence fst snd].
  destruct Hscan as (_ & [(Hall & Hbest)|(k & Hpos & (Hk & _))]).
  - left. injection Hbest as -> ->. split; [reflexivity|].
    split; [reflexivity | exact Hall].
  - right. split.
    + rewrite <- (all_candidates_order frame_chroma).
      change label with (fst (label, best_score)).
      apply in_map. apply list_elem_of_In.
      eapply list_elem_of_lookup_2. exact Hk.
    + split.
      * apply py_min2_pos; [reflexivity|].
        cbn [snd] in Hpos. apply Qlt_shift_div_l; [reflexivity|].
        now rewrite Qmult_0_l.
      * exists (label, best_score). split; [|exact Hpos].
        apply list_elem_of_In. eapply list_elem_of_lookup_2. exact Hk.
Qed.

Section detect_chords_more.

Variable load : string -> Z -> bool -> result (ndarray2 * Z).
Variable chroma_cqt : list Q -> Z -> Z -> result ndarray2.

Local Abbreviation detect := (detect_chords load chroma_cqt).

Lemma detect_chords_run_starts (audio_path : string) (target_sr : Z)
  (audio : ndarray2) (sr : Z) (mono : list Q) (others : list (list Q))
  (chroma : ndarray2) (segments : list segment) :
  load audio_path target_sr true = Ok (audio, sr) ->
  rows audio = mono :: others ->
  chroma_cqt mono sr hop_length = Ok chroma ->
  frame_segments sr chroma = Ok segments ->
  detect audio_path target_sr = Ok (run_starts segments).
Proof.
  intros Hload Hrows Hcqt Hseg.
  rewrite (detect_chords_unfold _ _ _ _ _ _ _ _ _ Hload Hrows Hcqt).
  unfold detect_chords_from_chroma. rewrite Hseg. simpl.
  now rewrite merge_segments_run_starts.
Qed.

(** A property of every frame's segment is a property of every returned
    segment. *)
Lemma detect_chords_Forall (P : segment -> Prop)
  (audio_path : string) (target_sr : Z)
  (audio : ndarray2) (sr : Z) (mono : list Q) (others : list (list Q))
  (chroma : ndarray2) :
  load audio_path target_sr true = Ok (audio, sr) ->
  rows audio = mono :: others ->
  chroma_cqt mono sr hop_length = Ok chroma ->
  shape0 chroma = 12%nat ->
  (forall i frame_chroma,
      length frame_chroma = 12%nat ->
      exists seg, frame_segment sr i frame_chroma = Ok seg /\ P seg) ->
  exists chords,
    detect audio_path target_sr = Ok chords /\ Forall P chords.
Proof.
  intros Hload Hrows Hcqt H12 Hframe.
  destruct (frame_segments_Forall (fun _ => P) sr chroma H12 Hframe)
    as (segments & Hseg & _ & HP).
  exists (run_starts segments). split.
  - exact (detect_chords_run_starts _ _ _ _ _ _ _ _ Hload Hrows Hcqt Hseg).
  - apply List.Forall_forall. intros seg Hin.
    apply run_starts_incl in Hin. apply list_elem_of_In in Hin.
    apply list_elem_of_lookup_1 in Hin as (i & Hi). exact (HP i seg Hi).
Qed.

(** X13. When decoding and chroma extraction succeed, every chord label
    returned by [detect_chords] is ["N"] or one of the 24 labels: a root name,
    or a root name followed by ["m"]. *)
Theorem detect_chords_labels (audio_path : string) (target_sr : Z)
  (audio : ndarray2) (sr : Z) (mono : list Q) (others : list (list Q))
  (chroma : ndarray2) :
  load audio_path target_sr true = Ok (audio, sr) ->
  rows audio = mono :: others ->
  chroma_cqt mono sr hop_length = Ok chroma ->
  shape0 chroma = 12%nat ->
  exists chords,
    detect audio_path target_sr = Ok chords /\
    Forall (fun seg => chord seg = "N"%string \/ In (chord seg) scan_order)
           chords.
Proof.
  intros Hload Hrows Hcqt H12.
  apply (detect_chords_Forall _ _ _ _ _ _ _ _ Hload Hrows Hcqt H12).
  intros i frame_chroma Hlen.
  destruct (frame_segment_outcome sr i frame_chroma Hlen)
    as (seg & Hseg & _ & [(HN & _)|(Hin & _)]); eauto.
Qed.

(** X14. When decoding and chroma extraction succeed, a returned segment is
    labelled ["N"] exactly when its confidence is zero; every other segment
    has a positive confidence. *)
Theorem detect_chords_no_chord_iff_zero_confidence
  (audio_path : string) (target_sr : Z)
  (audio : ndarray2) (sr : Z) (mono : list Q) (others : list (list Q))
  (chroma : ndarray2) :
  load audio_path target_sr true = Ok (audio, sr) ->
  rows audio = mono :: others ->
  chroma_cqt mono sr hop_length = Ok chroma ->
  shape0 chroma = 12%nat ->
  exists chords,
    detect audio_path target_sr = Ok chords /\
    Forall (fun seg =>
              (chord seg = "N"%string <-> (confidence seg == 0)%Q) /\
              (chord seg <> "N"%string -> (0 < confidence seg)%Q))
           chords.
Proof.
  intros Hload Hrows Hcqt H12.
  apply (detect_chords_Forall _ _ _ _ _ _ _ _ Hload Hrows Hcqt H12).
  intros i frame_chroma Hlen.
  destruct (frame_segment_outcome sr i frame_chroma Hlen)
    as (seg & Hseg & _ & [(HN & Hz & _)|(Hin & Hpos & _)]);
    exists seg; (split; [exact Hseg|]).
  - split; [tauto | congruence].
  - split; [|tauto]. split.
    + intros HN. rewrite HN in Hin. now apply no_chord_not_in_scan_order in Hin.
    + intros Hz. rewrite Hz in Hpos. now apply Qlt_irrefl in Hpos.
Qed.

Lemma frame_time_increasing (sr : Z) (i j : nat) :
  0 < sr -> (i < j)%nat -> (frame_time sr i < frame_time sr j)%Q.
Proof.
  intros Hsr Hij. unfold frame_time, Qdiv.
  apply Qmult_lt_compat_r.
  - apply Qinv_lt_0_compat. change 0%Q with (inject_Z 0).
    now rewrite <- Zlt_Qlt.
  - rewrite <- Zlt_Qlt. unfold hop_length. lia.
Qed.

Lemma frame_time_nonneg (sr : Z) (i : nat) :
  0 < sr -> (0 <= frame_time sr i)%Q.
Proof.
  intros Hsr. unfold frame_time. apply Qdiv_nonneg.
  - change 0%Q with (inject_Z 0). rewrite <- Zle_Qle. unfold hop_length. lia.
  - change 0%Q with (inject_Z 0). rewrite <- Zle_Qle. lia.
Qed.

Lemma StronglySorted_of_lookup {A : Type} (R : A -> A -> Prop) (l : list A) :
  (forall i j a b, (i < j)%nat -> l !! i = Some a -> l !! j = Some b -> R a b) ->
  StronglySorted R l.
Proof.
  induction l as [|x l IH]; intros H; constructor.
  - apply IH. intros i j a b Hij Hi Hj.
    apply (H (S i) (S j) a b); [lia | exact Hi | exact Hj].
  - apply Forall_lookup. intros j b Hj.
    apply (H 0%nat (S j) x b); [lia | reflexivity | exact Hj].
Qed.

Lemma run_starts_after_sorted (R : segment -> segment -> Prop)
  (segments : list segment) (prev : string) :
  StronglySorted R segments ->
  StronglySorted R (run_starts_after prev segments).
Proof.
  intros Hs. revert prev.
  induction Hs as [|seg rest Hrest IH Hall]; intros prev; simpl.
  - constructor.
  - destruct (String.eqb prev (chord seg)); [apply IH|].
    constructor; [apply IH|].
    apply List.Forall_forall. intros x Hx.
    apply run_starts_after_incl in Hx.
    rewrite List.Forall_forall in Hall. now apply Hall.
Qed.

Lemma run_starts_sorted (R : segment -> segment -> Prop)
  (segments : list segment) :
  StronglySorted R segments -> StronglySorted R (run_starts segments).
Proof.
  intros Hs. destruct Hs as [|seg rest Hrest Hall]; simpl; constructor.
  - now apply run_starts_after_sorted.
  - apply List.Forall_forall. intros x Hx.
    apply run_starts_after_incl in Hx.
    rewrite List.Forall_forall in Hall. now apply Hall.
Qed.

(** X15. When decoding and chroma extraction succeed at a positive sample
    rate, the returned segments are in strictly increasing order of time and
    no time is negative. *)
Theorem detect_chords_times_increasing
  (audio_path : string) (target_sr : Z)
  (audio : ndarray2) (sr : Z) (mono : list Q) (others : list (list Q))
  (chroma : ndarray2) :
  load audio_path target_sr true = Ok (audio, sr) ->
  rows audio = mono :: others ->
  chroma_cqt mono sr hop_length = Ok chroma ->
  shape0 chroma = 12%nat ->
  0 < sr ->
  exists chords,
    detect audio_path target_sr = Ok chords /\
    StronglySorted earlier chords /\
    Forall (fun seg => (0 <= time seg)%Q) chords.
Proof.
  intros Hload Hrows Hcqt H12 Hsr.
  destruct (frame_segments_Forall
              (fun i seg => time seg = frame_time sr i) sr chroma H12)
    as (segments & Hseg & _ & Htime).
  { intros i frame_chroma Hlen.
    destruct (frame_segment_outcome sr i frame_chroma Hlen)
      as (seg & Hs & Ht & _). eauto. }
  exists (run_starts segments). split; [|split].
  - exact (detect_chords_run_starts _ _ _ _ _ _ _ _ Hload Hrows Hcqt Hseg).
  - apply run_starts_sorted. apply StronglySorted_of_lookup.
    intros i j a b Hij Hi Hj. unfold earlier.
    rewrite (Htime _ _ Hi), (Htime _ _ Hj).
    now apply frame_time_increasing.
  - apply List.Forall_forall. intros seg Hin.
    apply run_starts_incl in Hin. apply list_elem_of_In in Hin.
    apply list_elem_of_lookup_1 in Hin as (i & Hi).
    rewrite (Htime _ _ Hi). now apply frame_time_nonneg.
Qed.

(** X17. When decoding and chroma extraction succeed, the sequence returned
    by [detect_chords] starts with the segment of the first frame, which has
    time zero, has at most one segment per frame, and is empty only when the
    chromagram has no frame. *)
Theorem detect_chords_first_segment
  (audio_path : string) (target_sr : Z)
  (audio : ndarray2) (sr : Z) (mono : list Q) (others : list (list Q))
  (chroma : ndarray2) :
  load audio_path target_sr true = Ok (audio, sr) ->
  rows audio = mono :: others ->
  chroma_cqt mono sr hop_length = Ok chroma ->
  shape0 chroma = 12%nat ->
  exists segments chords,
    frame_segments sr chroma = Ok segments /\
    detect audio_path target_sr = Ok chords /\
    head chords = head segments /\
    (length chords <= shape1 chroma)%nat /\
    (chords = [] <-> shape1 chroma = 0%nat) /\
    (forall seg, head chords = Some seg -> (time seg == 0)%Q).
Proof.
  intros Hload Hrows Hcqt H12.
  destruct (frame_segments_Forall
              (fun i seg => time seg = frame_time sr i) sr chroma H12)
    as (segments & Hseg & Hlen & Htime).
  { intros i frame_chroma Hl.
    destruct (frame_segment_outcome sr i frame_chroma Hl)
      as (seg & Hs & Ht & _). eauto. }
  exists segments, (run_starts segments).
  split; [exact Hseg|]. split.
  { exact (detect_chords_run_starts _ _ _ _ _ _ _ _ Hload Hrows Hcqt Hseg). }
  assert (Hle : forall l prev,
             (length (run_starts_after prev l) <= length l)%nat).
  { induction l as [|x l IH]; intros prev; simpl; [lia|].
    destruct (String.eqb prev (chord x)); simpl;
      specialize (IH (chord x)); lia. }
  rewrite <- Hlen. destruct segments as [|seg rest]; simpl.
  - split; [reflexivity|]. split; [lia|]. split; [tauto|].
    intros seg H. discriminate H.
  - split; [reflexivity|]. split; [specialize (Hle rest (chord seg)); lia|].
    split; [split; intros H; discriminate H|].
    intros seg' H. injection H as <-.
    rewrite (Htime 0%nat seg eq_refl). unfold frame_time. reflexivity.
Qed.

End detect_chords_more.

Lemma run_starts_after_fixed (segments : list segment) (prev : string) :
  no_adjacent_repeat segments ->
  match segments with [] => True | seg :: _ => prev <> chord seg end ->
  run_starts_after prev segments = segments.
Proof.
  revert prev. induction segments as [|seg rest IH]; intros prev Hno Hhead;
    simpl; [reflexivity|].
  destruct (String.eqb_spec prev (chord seg)) as [E|_]; [contradiction|].
  f_equal. destruct Hno as (Hnext & Hrest). apply IH; [exact Hrest|].
  destruct rest; [exact I | exact Hnext].
Qed.

Lemma run_starts_fixed (segments : list segment) :
  no_adjacent_repeat segments -> run_starts segments = segments.
Proof.
  destruct segments as [|seg rest]; simpl; [reflexivity|].
  intros (Hnext & Hrest). f_equal.
  apply run_starts_after_fixed; [exact Hrest|].
  destruct rest; [exact I | exact Hnext].
Qed.

(** X16. Merging is idempotent: the merge loop of [detect_chords] leaves an
    already merged sequence as it is, and more generally any sequence
    without two equal neighbouring labels. *)
Theorem merge_segments_idempotent (segments : list segment) :
  merge_segments (merge_segments segments) = merge_segments segments /\
  (no_adjacent_repeat segments -> merge_segments segments = segments).
Proof.
  split.
  - rewrite !merge_segments_run_starts.
    apply run_starts_fixed, run_starts_no_repeat.
  - intros Hno. rewrite merge_segments_run_starts.
    now apply run_starts_fixed.
Qed.

Lemma dot_aux_nonpos (u v : list Q) :
  Forall (fun x => (x <= 0)%Q) u -> nonneg v -> (dot_aux u v <= 0)%Q.
Proof.
  intros Hu. revert v. induction Hu as [|x u Hx _ IH]; intros v Hv; simpl.
  - apply Qle_refl.
  - destruct Hv as [|y v Hy Hv]; [apply Qle_refl|].
    specialize (IH _ Hv).
    assert (Hxy : (x * y <= 0)%Q).
    { assert (H0 : (0 <= (- x) * y)%Q).
      { apply Qmult_le_0_compat; [lra | exact Hy]. }
      assert (E : ((- x) * y == - (x * y))%Q) by ring.
      rewrite E in H0. lra. }
    lra.
Qed.

Lemma templates_nonneg : nonneg major_template /\ nonneg minor_template.
Proof. split; repeat constructor; discriminate. Qed.

(** X18. A frame of twelve values none of which is positive - silence in
    particular - is labelled ["N"] with confidence zero. *)
Theorem frame_without_energy_is_no_chord (sr : Z) (i : nat) (frame_chroma : list Q) :
  length frame_chroma = 12%nat ->
  Forall (fun x => (x <= 0)%Q) frame_chroma ->
  exists seg,
    frame_segment sr i frame_chroma = Ok seg /\
    chord seg = "N"%string /\ (confidence seg == 0)%Q.
Proof.
  intros H12 Hneg.
  destruct (frame_segment_outcome sr i frame_chroma H12)
    as (seg & Hseg & _ & [(HN & Hz & _)|(_ & _ & (c & Hc & Hpos))]);
    exists seg; (split; [exact Hseg|]); [now split|].
  exfalso.
  unfold all_candidates in Hc. apply in_flat_map in Hc as (root & _ & Hc).
  destruct templates_nonneg as (Hmaj & Hmin).
  assert (Hle : (snd c <= 0)%Q).
  { unfold frame_candidates in Hc.
    destruct Hc as [Hc|[Hc|[]]]; rewrite <- Hc; cbn [snd];
      apply dot_aux_nonpos; try exact Hneg; now apply roll_nonneg. }
  lra.
Qed.

Section compute_chromagram_more.

Variable load : string -> Z -> bool -> result (ndarray2 * Z).
Variable chroma_cqt : list Q -> Z -> Z -> result ndarray2.

(** X28. When decoding and chroma extraction succeed, [compute_chromagram]
    returns one frame time per chroma frame, and [detect_chords] on the same
    file returns only segments whose time is one of these frame times. *)
Theorem detect_chords_times_are_frame_times
  (audio_path : string) (target_sr : Z)
  (audio : ndarray2) (sr : Z) (mono : list Q) (others : list (list Q))
  (c : ndarray2) :
  load audio_path target_sr true = Ok (audio, sr) ->
  rows audio = mono :: others ->
  chroma_cqt mono sr hop_length = Ok c ->
  shape0 c = 12%nat ->
  exists cg chords,
    compute_chromagram load chroma_cqt audio_path target_sr = Ok cg /\
    detect_chords load chroma_cqt audio_path target_sr = Ok chords /\
    length (frame_times cg) = shape1 c /\
    Forall (fun seg => In (time seg) (frame_times cg)) chords.
Proof.
  intros Hload Hrows Hcqt H12.
  destruct (frame_segments_Forall
              (fun i seg => time seg = frame_time sr i) sr c H12)
    as (segments & Hseg & Hlen & Htime).
  { intros i frame_chroma Hl.
    destruct (frame_segment_outcome sr i frame_chroma Hl)
      as (seg & Hs & Ht & _). eauto. }
  eexists. exists (run_starts segments). split; [|split; [|split]].
  - unfold compute_chromagram. rewrite Hload. simpl. rewrite Hrows. simpl.
    rewrite Hcqt. simpl. reflexivity.
  - exact (detect_chords_run_starts _ _ _ _ _ _ _ _ _ _ Hload Hrows Hcqt Hseg).
  - cbn [frame_times]. now rewrite length_map, length_seq.
  - cbn [frame_times]. apply List.Forall_forall. intros seg Hin.
    apply run_starts_incl in Hin. apply list_elem_of_In in Hin.
    apply list_elem_of_lookup_1 in Hin as (i & Hi).
    rewrite (Htime _ _ Hi). apply in_map. apply in_seq.
    apply lookup_lt_Some in Hi. lia.
Qed.

End compute_chromagram_more.

Lemma detect_chords_times_are_frame_times_witness :
  exists cg chords,
    compute_chromagram AnalysisExamples.load_mono
      AnalysisExamples.chroma_cqt_progression "song.wav" 44100 = Ok cg /\
    detect_chords AnalysisExamples.load_mono
      AnalysisExamples.chroma_cqt_progression "song.wav" 44100 = Ok chords /\
    length (frame_times cg) = shape1 AnalysisExamples.progression_chroma /\
    Forall (fun seg => In (time seg) (frame_times cg)) chords.
Proof.
  apply (detect_chords_times_are_frame_times
           AnalysisExamples.load_mono AnalysisExamples.chroma_cqt_progression
           "song.wav" 44100 (of_rows [[0; 0; 0; 0]%Q]) 44100
           [0; 0; 0; 0]%Q [] AnalysisExamples.progression_chroma);
    reflexivity.
Defined.

Lemma detect_chords_labels_witness :
  exists chords,
    detect_chords AnalysisExamples.load_mono
      AnalysisExamples.chroma_cqt_progression "song.wav" 44100 = Ok chords /\
    Forall (fun seg => chord seg = "N"%string \/ In (chord seg) scan_order)
           chords.
Proof.
  apply (detect_chords_labels
           AnalysisExamples.load_mono AnalysisExamples.chroma_cqt_progression
           "song.wav" 44100 (of_rows [[0; 0; 0; 0]%Q]) 44100
           [0; 0; 0; 0]%Q [] AnalysisExamples.progression_chroma);
    reflexivity.
Defined.

Lemma detect_chords_no_chord_iff_zero_confidence_witness :
  exists chords,
    detect_chords AnalysisExamples.load_mono
      AnalysisExamples.chroma_cqt_progression "song.wav" 44100 = Ok chords /\
    Forall (fun seg =>
              (chord seg = "N"%string <-> (confidence seg == 0)%Q) /\
              (chord seg <> "N"%string -> (0 < confidence seg)%Q))
           chords.
Proof.
  apply (detect_chords_no_chord_iff_zero_confidence
           AnalysisExamples.load_mono AnalysisExamples.chroma_cqt_progression
           "song.wav" 44100 (of_rows [[0; 0; 0; 0]%Q]) 44100
           [0; 0; 0; 0]%Q [] AnalysisExamples.progression_chroma);
    reflexivity.
Defined.

Lemma detect_chords_times_increasing_witness :
  exists chords,
    detect_chords AnalysisExamples.load_mono
      AnalysisExamples.chroma_cqt_progression "song.wav" 44100 = Ok chords /\
    StronglySorted earlier chords /\
    Forall (fun seg => (0 <= time seg)%Q) chords.
Proof.
  apply (detect_chords_times_increasing
           AnalysisExamples.load_mono AnalysisExamples.chroma_cqt_progression
           "song.wav" 44100 (of_rows [[0; 0; 0; 0]%Q]) 44100
           [0; 0; 0; 0]%Q [] AnalysisExamples.progression_chroma);
    reflexivity.
Defined.

Lemma detect_chords_first_segment_witness :
  exists segments chords,
    frame_segments 44100 AnalysisExamples.progression_chroma = Ok segments /\
    detect_chords AnalysisExamples.load_mono
      AnalysisExamples.chroma_cqt_progression "song.wav" 44100 = Ok chords /\
    head chords = head segments /\
    (length chords <= shape1 AnalysisExamples.progression_chroma)%nat /\
    (chords = [] <-> shape1 AnalysisExamples.progression_chroma = 0%nat) /\
    (forall seg, head chords = Some seg -> (time seg == 0)%Q).
Proof.
  apply (detect_chords_first_segment
           AnalysisExamples.load_mono AnalysisExamples.chroma_cqt_progression
           "song.wav" 44100 (of_rows [[0; 0; 0; 0]%Q]) 44100
           [0; 0; 0; 0]%Q [] AnalysisExamples.progression_chroma);
    reflexivity.
Defined.

Lemma merge_segments_idempotent_witness :
  let segments :=
    [ {| time := 0; chord := "C"; confidence := 1 |};
      {| time := 1; chord := "N"; confidence := 0 |};
      {| time := 2; chord := "C"; confidence := 1 |} ] in
  merge_segments (merge_segments segments) = merge_segments segments /\
  merge_segments segments = segments.
Proof.
  intros segments.
  destruct (merge_segments_idempotent segments) as (Hidem & Hfixed).
  split; [exact Hidem|]. apply Hfixed.
  simpl. repeat split; discriminate.
Defined.

Lemma frame_without_energy_is_no_chord_witness :
  exists seg,
    frame_segment 44100 3 (repeat 0%Q 12) = Ok seg /\
    chord seg = "N"%string /\ (confidence seg == 0)%Q.
Proof.
  apply (frame_without_energy_is_no_chord 44100 3 (repeat 0%Q 12)).
  - reflexivity.
  - repeat constructor; discriminate.
Defined.

End ChordsMore.

(** ** More about key and tempo *)

Module KeyBpmMore.
Import Numpy Scan KeyBpm NumpyFacts ScanFacts ResultFacts KeyBpmFacts.

Lemma key_label_in_all_key_labels (m : mode) (tonic : nat) (label : string) :
  key_label m tonic = Ok label -> In label all_key_labels.
Proof.
  unfold key_label.
  do 12 (destruct tonic as [|tonic];
         [destruct m; injection 1 as <-; vm_compute; tauto|]).
  simpl. discriminate.
Qed.

Section estimate_key_more.

Variable sqrt : Q -> Q.

Lemma estimate_key_decompose (chroma : ndarray2) :
  shape0 chroma = 12%nat ->
  exists k m tonic best label,
    best_key sqrt chroma = Ok (m, tonic, best) /\
    first_maximum score
      (flat_map (rotation_scores sqrt chroma) (seq 0 12)) k (m, tonic, best) /\
    canonical_order !! k = Some (m, tonic) /\
    key_label m tonic = Ok label /\
    _estimate_key sqrt chroma
    = Ok {| key := label; confidence := key_confidence best |}.
Proof.
  intros H12.
  destruct (best_key_first_maximum sqrt chroma H12)
    as (k & m & tonic & best & Hbest & Hfirst & Hk).
  destruct (canonical_order_tonic _ _ _ Hk) as (Htonic & _).
  destruct (key_label_Ok m tonic Htonic) as (label & Hlabel).
  exists k, m, tonic, best, label. repeat split; try apply Hfirst; try assumption.
  unfold _estimate_key. rewrite Hbest. simpl. now rewrite Hlabel.
Qed.

(** X19. On a twelve-row chromagram [_estimate_key] never raises and its key
    is one of the 24 strings made of a tonic name, a blank and ["major"] or
    ["minor"]. *)
Theorem estimate_key_label (chroma : ndarray2) :
  shape0 chroma = 12%nat ->
  exists est,
    _estimate_key sqrt chroma = Ok est /\
    In (key est) all_key_labels.
Proof.
  intros H12.
  destruct (estimate_key_decompose chroma H12)
    as (k & m & tonic & best & label & _ & _ & _ & Hlabel & Hest).
  eexists. split; [exact Hest|]. cbn [key].
  exact (key_label_in_all_key_labels _ _ _ Hlabel).
Qed.

End estimate_key_more.

Lemma estimate_key_label_witness :
  exists est,
    _estimate_key AnalysisExamples.sqrt_9 AnalysisExamples.c_major_chroma
    = Ok est /\
    In (key est) all_key_labels.
Proof.
  apply (estimate_key_label AnalysisExamples.sqrt_9
           AnalysisExamples.c_major_chroma).
  reflexivity.
Defined.

End KeyBpmMore.

Module KeyTempoFacts.
Import Numpy KeyTempo KeyBpmFacts KeyBpmMore.

Lemma frames_to_time_increasing (sr a b : Z) :
  0 < sr -> a < b -> (frames_to_time sr a < frames_to_time sr b)%Q.
Proof.
  intros Hsr Hab. unfold frames_to_time, Qdiv.
  apply Qmult_lt_compat_r.
  - apply Qinv_lt_0_compat. change 0%Q with (inject_Z 0).
    now rewrite <- Zlt_Qlt.
  - rewrite <- Zlt_Qlt. unfold default_hop_length. lia.
Qed.

Lemma frames_to_time_nonneg (sr a : Z) :
  0 < sr -> 0 <= a -> (0 <= frames_to_time sr a)%Q.
Proof.
  intros Hsr Ha. unfold frames_to_time. apply NumpyFacts.Qdiv_nonneg.
  - change 0%Q with (inject_Z 0). rewrite <- Zle_Qle.
    unfold default_hop_length. lia.
  - change 0%Q with (inject_Z 0). rewrite <- Zle_Qle. lia.
Qed.

Section analyze_key_and_tempo_facts.

Variable sqrt : Q -> Q.
Variable load : string -> Z -> bool -> result (ndarray2 * Z).
Variable beat_track : list Q -> Z -> result (Q * list Z).
Variable chroma_cqt : list Q -> Z -> Z -> result ndarray2.

Local Abbreviation analyze :=
  (analyze_key_and_tempo sqrt load beat_track chroma_cqt).

(** X20. When decoding, beat tracking and chroma extraction succeed,
    [analyze_key_and_tempo] returns the tracker's tempo, one beat time per
    beat frame, a key among the 24 labels and a key confidence in
    [[0, 1]]. *)
Theorem analyze_key_and_tempo_result
  (audio_path : string) (target_sr : Z)
  (audio : ndarray2) (sr : Z) (mono : list Q) (others : list (list Q))
  (tempo : Q) (beat_frames : list Z) (chroma : ndarray2) :
  load audio_path target_sr true = Ok (audio, sr) ->
  rows audio = mono :: others ->
  beat_track mono sr = Ok (tempo, beat_frames) ->
  chroma_cqt mono sr default_hop_length = Ok chroma ->
  shape0 chroma = 12%nat ->
  exists res,
    analyze audio_path target_sr = Ok res /\
    tempo_bpm res = tempo /\
    beat_times res = map (frames_to_time sr) beat_frames /\
    In (key res) KeyBpm.all_key_labels /\
    (0 <= key_confidence res <= 1)%Q.
Proof.
  intros Hload Hrows Hbeat Hcqt H12. unfold analyze_key_and_tempo.
  rewrite Hload. simpl. rewrite Hrows. simpl. rewrite Hbeat. simpl.
  rewrite Hcqt. simpl.
  destruct (estimate_key_decompose sqrt chroma H12)
    as (k & m & tonic & best & label & _ & _ & _ & Hlabel & Hest).
  rewrite Hest. simpl. eexists. split; [reflexivity|]. cbn.
  repeat split.
  - exact (key_label_in_all_key_labels _ _ _ Hlabel).
  - apply key_confidence_unit_interval.
  - apply key_confidence_unit_interval.
Qed.

(** X21. With a positive sample rate, beat frames that are non-negative and
    strictly increasing give beat times that are non-negative and strictly
    increasing. *)
Theorem analyze_key_and_tempo_beat_order
  (audio_path : string) (target_sr : Z)
  (audio : ndarray2) (sr : Z) (mono : list Q) (others : list (list Q))
  (tempo : Q) (beat_frames : list Z) (res : key_tempo) :
  load audio_path target_sr true = Ok (audio, sr) ->
  rows audio = mono :: others ->
  beat_track mono sr = Ok (tempo, beat_frames) ->
  analyze audio_path target_sr = Ok res ->
  0 < sr ->
  StronglySorted Z.lt beat_frames ->
  Forall (fun f => 0 <= f) beat_frames ->
  StronglySorted Qlt (beat_times res) /\
  Forall (fun t => (0 <= t)%Q) (beat_times res).
Proof.
  intros Hload Hrows Hbeat Hrun Hsr Hsorted Hnonneg.
  unfold analyze_key_and_tempo in Hrun.
  rewrite Hload in Hrun. simpl in Hrun. rewrite Hrows in Hrun. simpl in Hrun.
  rewrite Hbeat in Hrun. simpl in Hrun.
  destruct (chroma_cqt mono sr default_hop_length) as [chroma|e];
    simpl in Hrun; [|discriminate].
  destruct (KeyBpm._estimate_key sqrt chroma) as [est|e];
    simpl in Hrun; [|discriminate].
  injection Hrun as <-. cbn [beat_times]. split.
  - clear Hnonneg Hbeat. induction Hsorted as [|f fs Hfs IH Hall]; simpl.
    + constructor.
    + constructor; [exact IH|].
      apply List.Forall_forall. intros t Ht.
      apply in_map_iff in Ht as (g & <- & Hg).
      rewrite List.Forall_forall in Hall.
      apply frames_to_time_increasing; [exact Hsr | now apply Hall].
  - apply List.Forall_forall. intros t Ht.
    apply in_map_iff in Ht as (g & <- & Hg).
    rewrite List.Forall_forall in Hnonneg.
    apply frames_to_time_nonneg; [exact Hsr | now apply Hnonneg].
Qed.

End analyze_key_and_tempo_facts.

Lemma analyze_key_and_tempo_result_witness :
  exists res,
    analyze_key_and_tempo AnalysisExamples.sqrt_9 AnalysisExamples.load_mono
      AnalysisExamples.beat_track_steady AnalysisExamples.chroma_cqt_c_major
      "song.wav" 44100 = Ok res /\
    tempo_bpm res = 120%Q /\
    beat_times res = map (frames_to_time 44100) [0; 43; 86] /\
    In (key res) KeyBpm.all_key_labels /\
    (0 <= key_confidence res <= 1)%Q.
Proof.
  apply (analyze_key_and_tempo_result
           AnalysisExamples.sqrt_9 AnalysisExamples.load_mono
           AnalysisExamples.beat_track_steady
           AnalysisExamples.chroma_cqt_c_major
           "song.wav" 44100 (of_rows [[0; 0; 0; 0]%Q]) 44100
           [0; 0; 0; 0]%Q [] 120%Q [0; 43; 86]
           AnalysisExamples.c_major_chroma);
    reflexivity.
Defined.

Lemma analyze_key_and_tempo_beat_order_witness :
  exists res,
    analyze_key_and_tempo AnalysisExamples.sqrt_9 AnalysisExamples.load_mono
      AnalysisExamples.beat_track_steady AnalysisExamples.chroma_cqt_c_major
      "song.wav" 44100 = Ok res /\
    StronglySorted Qlt (beat_times res) /\
    Forall (fun t => (0 <= t)%Q) (beat_times res).
Proof.
  eexists. split; [vm_compute; reflexivity|].
  apply (analyze_key_and_tempo_beat_order
           AnalysisExamples.sqrt_9 AnalysisExamples.load_mono
           AnalysisExamples.beat_track_steady
           AnalysisExamples.chroma_cqt_c_major
           "song.wav" 44100 (of_rows [[0; 0; 0; 0]%Q]) 44100
           [0; 0; 0; 0]%Q [] 120%Q [0; 43; 86]).
  - reflexivity.
  - reflexivity.
  - reflexivity.
  - vm_compute. reflexivity.
  - lia.
  - repeat constructor; lia.
  - repeat constructor; lia.
Defined.

End KeyTempoFacts.

(** ** More about stem separation *)

Module DemucsMore.
Import Numpy Demucs DemucsFacts.

Section separate_stems_more.

Variable get_model : string -> result model_object.
Variable to_device : model_object -> string -> result unit.
Variable mkdir : string -> result unit.
Variable load : string -> Z -> bool -> result (ndarray2 * Z).
Variable apply_model : model_object -> ndarray2 -> string -> result (list ndarray2).
Variable sf_write : string -> ndarray2 -> Z -> result unit.

Local Abbreviation lookup_model := (_get_demucs_model get_model).
Local Abbreviation separate :=
  (separate_stems get_model to_device mkdir load apply_model sf_write).

Lemma get_demucs_model_failure (model_name : string) (e : exn) (w : world) :
  _MODEL_CACHE w !! model_name = None ->
  get_model model_name = Raise e ->
  lookup_model model_name w
  = (Raise e,
     {| objects := objects w;
        _MODEL_CACHE := _MODEL_CACHE w;
        get_model_calls := get_model_calls w ++ [model_name] |}).
Proof.
  intros Hnone Hget. unfold _get_demucs_model, load_model.
  rewrite Hnone. simpl. now rewrite Hget.
Qed.

Lemma failed_load_step
  (audio_path output_dir model_name device : string) (e : exn) (w : world) :
  _MODEL_CACHE w !! model_name = None ->
  mkdir output_dir = Ok tt ->
  get_model model_name = Raise e ->
  separate audio_path output_dir model_name device w
  = (Raise e,
     {| objects := objects w;
        _MODEL_CACHE := _MODEL_CACHE w;
        get_model_calls := get_model_calls w ++ [model_name] |}).
Proof.
  intros Hnone Hmkdir Hget. unfold separate_stems.
  rewrite bind_run. unfold lift at 1. rewrite Hmkdir.
  now rewrite bind_run, (get_demucs_model_failure _ _ _ Hnone Hget).
Qed.

(** X24. When the model is not cached and loading it fails, [separate_stems]
    raises the loader's error and caches nothing: the cache and the object
    store are as before, and only the load log has grown by this one
    attempt. *)
Theorem failed_load_is_not_cached
  (audio_path output_dir model_name device : string) (e : exn) (w : world) :
  _MODEL_CACHE w !! model_name = None ->
  mkdir output_dir = Ok tt ->
  get_model model_name = Raise e ->
  separate audio_path output_dir model_name device w
  = (Raise e,
     {| objects := objects w;
        _MODEL_CACHE := _MODEL_CACHE w;
        get_model_calls := get_model_calls w ++ [model_name] |}).
Proof.
  exact (failed_load_step audio_path output_dir model_name device e w).
Qed.

(** One call changes the cache in at most one way: by adding the requested
    name, bound to a new object. *)
Lemma separate_stems_step
  (audio_path output_dir model_name device : string) (w : world) :
  let w' := snd (separate audio_path output_dir model_name device w) in
  (_MODEL_CACHE w' = _MODEL_CACHE w /\
   length (objects w') = length (objects w)) \/
  (_MODEL_CACHE w !! model_name = None /\
   _MODEL_CACHE w' = <[model_name := length (objects w)]> (_MODEL_CACHE w) /\
   length (objects w') = S (length (objects w))).
Proof.
  intros w'.
  destruct (mkdir output_dir) as [[]|e] eqn:Hmkdir.
  2:{ left. subst w'. unfold separate_stems.
      rewrite bind_run. unfold lift at 1. now rewrite Hmkdir. }
  destruct (_MODEL_CACHE w !! model_name) as [ref|] eqn:Hcache.
  - left.
    destruct (separate_stems_hit get_model to_device mkdir load apply_model
                sf_write audio_path output_dir model_name device ref w Hcache)
      as (Hc & _ & Ho).
    now split.
  - destruct (get_model model_name) as [m|e] eqn:Hget.
    + right.
      destruct (separate_stems_miss get_model to_device mkdir load apply_model
                  sf_write audio_path output_dir model_name device m w
                  Hcache Hmkdir Hget) as (Hc & _ & Ho).
      now repeat split.
    + left. subst w'.
      rewrite (failed_load_step audio_path output_dir model_name device e w
                 Hcache Hmkdir Hget).
      now split.
Qed.

(** X25. No call evicts or rebinds a cache entry: a model name cached before
    a [separate_stems] call, for whatever name and with whatever outcome, is
    cached with the same reference afterwards. *)
Theorem cache_never_evicts
  (audio_path output_dir model_name device : string) (w : world)
  (name : string) (ref : nat) :
  _MODEL_CACHE w !! name = Some ref ->
  _MODEL_CACHE (snd (separate audio_path output_dir model_name device w))
    !! name = Some ref.
Proof.
  intros Hcached.
  destruct (separate_stems_step audio_path output_dir model_name device w)
    as [(Hc & _)|(Hnone & Hc & _)]; rewrite Hc; [exact Hcached|].
  rewrite lookup_insert_ne; [exact Hcached|]. congruence.
Qed.

(** X26. [separate_stems] keeps the registry sound: if every cached
    reference points into the object store and no two names share a
    reference before a call, the same holds after it, whatever the outcome
    of the call. *)
Theorem registry_ok_preserved
  (audio_path output_dir model_name device : string) (w : world) :
  registry_ok w ->
  registry_ok (snd (separate audio_path output_dir model_name device w)).
Proof.
  intros Hok.
  destruct (separate_stems_step audio_path output_dir model_name device w)
    as [(Hc & Ho)|(Hnone & Hc & Ho)]; intros name ref Hname.
  - rewrite Hc in Hname. destruct (Hok name ref Hname) as (Hlt & Hinj).
    split; [lia|]. intros name' Hname'. rewrite Hc in Hname'. now apply Hinj.
  - rewrite Hc in Hname. rewrite Ho.
    destruct (decide (model_name = name)) as [->|Hne].
    + rewrite lookup_insert_eq in Hname. injection Hname as <-.
      split; [lia|]. intros name' Hname'. rewrite Hc in Hname'.
      destruct (decide (name = name')) as [->|Hne']; [reflexivity|].
      rewrite lookup_insert_ne in Hname' by exact Hne'.
      destruct (Hok name' _ Hname') as (Hlt & _). lia.
    + rewrite lookup_insert_ne in Hname by exact Hne.
      destruct (Hok name ref Hname) as (Hlt & Hinj).
      split; [lia|]. intros name' Hname'. rewrite Hc in Hname'.
      destruct (decide (model_name = name')) as [<-|Hne'].
      * rewrite lookup_insert_eq in Hname'. injection Hname' as <-. lia.
      * rewrite lookup_insert_ne in Hname' by exact Hne'. now apply Hinj.
Qed.

Lemma write_stems_paths (output_dir : string) (rate : Z)
  (stems : list ndarray2) (names : list (nat * string))
  (acc res : gmap string string) :
  write_stems sf_write output_dir rate stems names acc = Ok res ->
  forall name,
    res !! name
    = if decide (name ∈ map snd names)
      then Some (output_dir +:+ "/" +:+ name +:+ ".wav")
      else acc !! name.
Proof.
  revert acc. induction names as [|[i n] rest IH]; intros acc Hrun name.
  - simpl in Hrun. injection Hrun as <-.
    destruct (decide _) as [Hin|_]; [|reflexivity].
    now apply elem_of_nil in Hin.
  - cbn [write_stems] in Hrun.
    destruct (stems !! i) as [stem_audio|]; [|discriminate].
    destruct (sf_write (output_dir +:+ "/" +:+ n +:+ ".wav")
                (transpose stem_audio) rate) as [[]|e];
      simpl in Hrun; [|discriminate].
    rewrite (IH _ Hrun name). cbn [map snd].
    destruct (decide (name ∈ map snd rest)) as [Hin|Hnin].
    + destruct (decide (name ∈ n :: map snd rest)) as [_|Hn];
        [reflexivity|]. exfalso. apply Hn. apply elem_of_cons. now right.
    + destruct (decide (n = name)) as [->|Hne].
      * rewrite lookup_insert_eq.
        destruct (decide (name ∈ name :: map snd rest)) as [_|Hn];
          [reflexivity|]. exfalso. apply Hn. apply elem_of_cons. now left.
      * rewrite lookup_insert_ne by exact Hne.
        destruct (decide (name ∈ n :: map snd rest)) as [Hn|_];
          [|reflexivity].
        apply elem_of_cons in Hn as [Hn|Hn]; [congruence | contradiction].
Qed.

Lemma map_snd_imap (names : list string) :
  map snd (imap (fun i name => (i, name)) names) = names.
Proof.
  assert (H : forall (f : nat -> nat),
             map snd (imap (fun i name => (f i, name)) names) = names).
  { induction names as [|x names IH]; intros f; simpl; [reflexivity|].
    f_equal. exact (IH (f ∘ S)). }
  exact (H (fun i => i)).
Qed.

(** X27. When [separate_stems] returns, the model it used is the cached
    object, bound to the requested device and in evaluation mode, and the
    returned dictionary has exactly one entry per source of that model:
    the file [<output_dir>/<source>.wav]. *)
Theorem separate_stems_paths
  (audio_path output_dir model_name device : string) (w w' : world)
  (stem_paths : gmap string string) :
  separate audio_path output_dir model_name device w = (Ok stem_paths, w') ->
  exists ref m,
    _MODEL_CACHE w' !! model_name = Some ref /\
    objects w' !! ref = Some m /\
    Demucs.device m = device /\
    training m = false /\
    forall name,
      stem_paths !! name
      = if decide (name ∈ sources m)
        then Some (stem_path output_dir name)
        else None.
Proof.
  unfold separate_stems. rewrite bind_run. unfold lift at 1.
  destruct (mkdir output_dir) as [[]|e]; [|discriminate].
  rewrite bind_run.
  destruct (lookup_model model_name w) as [[ref|e] w1] eqn:Hlookup;
    [|discriminate].
  assert (Hcached : _MODEL_CACHE w1 !! model_name = Some ref).
  { unfold _get_demucs_model in Hlookup.
    destruct (_MODEL_CACHE w !! model_name) as [r|] eqn:Hc.
    - injection Hlookup as <- <-. exact Hc.
    - destruct (load_model get_model model_name w) as [[r|e] w0];
        [|discriminate].
      injection Hlookup as <- <-. cbn [_MODEL_CACHE]. apply lookup_insert_eq. }
  rewrite bind_run. unfold model_to at 1. rewrite bind_run. unfold deref at 1.
  destruct (objects w1 !! ref) as [m0|] eqn:Hobj; [|discriminate].
  rewrite bind_run. unfold lift at 1.
  destruct (to_device m0 device) as [[]|e]; [|discriminate].
  unfold update at 1. rewrite bind_run. unfold model_eval, update at 1.
  rewrite bind_run. unfold deref at 1. cbn [objects].
  rewrite !list_lookup_alter, Hobj.
  repeat (case_decide; [|congruence]). cbn [fmap option_fmap option_map].
  rewrite bind_run. unfold lift at 1.
  destruct (load audio_path _ false) as [[audio sr]|e]; [|discriminate].
  rewrite bind_run. unfold lift at 1.
  destruct (apply_model _ audio device) as [stems|e]; [|discriminate].
  unfold lift.
  destruct (write_stems _ _ _ _ _ _) as [res|e] eqn:Hwrite; [|discriminate].
  intros Hrun. injection Hrun as <- <-.
  exists ref, (with_eval (with_device device m0)).
  cbn [_MODEL_CACHE objects]. split; [exact Hcached|].
  split.
  { rewrite !list_lookup_alter, Hobj.
    repeat (case_decide; [|congruence]). reflexivity. }
  split; [reflexivity|]. split; [reflexivity|].
  intros name. rewrite (write_stems_paths _ _ _ _ _ _ Hwrite name).
  rewrite map_snd_imap. cbn [sources with_eval with_device].
  destruct (decide _); [reflexivity | apply lookup_empty].
Qed.

End separate_stems_more.

Lemma failed_load_is_not_cached_witness :
  DemucsExamples.separate_offline "song.wav" "out" "htdemucs" "cpu"
    initial_world
  = (Raise (Exception "RuntimeError"),
     {| objects := [];
        _MODEL_CACHE := ∅;
        get_model_calls := [] ++ ["htdemucs"%string] |}).
Proof.
  apply (failed_load_is_not_cached
           DemucsExamples.get_model_offline DemucsExamples.to_device
           DemucsExamples.mkdir DemucsExamples.load
           DemucsExamples.apply_model DemucsExamples.sf_write
           "song.wav" "out" "htdemucs" "cpu"
           (Exception "RuntimeError") initial_world);
    reflexivity.
Defined.

Lemma cache_never_evicts_witness :
  _MODEL_CACHE
    (snd (DemucsExamples.separate "song.wav" "out" "mdx_extra" "cpu"
            DemucsExamples.after_cpu))
    !! "htdemucs"%string = Some 0%nat.
Proof.
  apply (cache_never_evicts
           DemucsExamples.get_model DemucsExamples.to_device
           DemucsExamples.mkdir DemucsExamples.load
           DemucsExamples.apply_model DemucsExamples.sf_write
           "song.wav" "out" "mdx_extra" "cpu" DemucsExamples.after_cpu
           "htdemucs" 0).
  vm_compute. reflexivity.
Defined.

Lemma registry_ok_preserved_witness :
  registry_ok DemucsExamples.after_cpu.
Proof.
  apply (registry_ok_preserved
           DemucsExamples.get_model DemucsExamples.to_device
           DemucsExamples.mkdir DemucsExamples.load
           DemucsExamples.apply_model DemucsExamples.sf_write
           "song.wav" "out" "htdemucs" "cpu" initial_world).
  intros name ref H. unfold initial_world in H. cbn [_MODEL_CACHE] in H.
  rewrite lookup_empty in H. discriminate H.
Defined.

Lemma separate_stems_paths_witness :
  exists ref m,
    _MODEL_CACHE DemucsExamples.after_cpu !! "htdemucs"%string = Some ref /\
    objects DemucsExamples.after_cpu !! ref = Some m /\
    device m = "cpu"%string /\
    training m = false /\
    forall name,
      (list_to_map
         [("drums", "out/drums.wav"); ("bass", "out/bass.wav");
          ("other", "out/other.wav"); ("vocals", "out/vocals.wav")]%string
       : gmap string string) !! name
      = if decide (name ∈ sources m)
        then Some (stem_path "out" name)
        else None.
Proof.
  apply (separate_stems_paths
           DemucsExamples.get_model DemucsExamples.to_device
           DemucsExamples.mkdir DemucsExamples.load
           DemucsExamples.apply_model DemucsExamples.sf_write
           "song.wav" "out" "htdemucs" "cpu" initial_world
           DemucsExamples.after_cpu).
  vm_compute. reflexivity.
Defined.

End DemucsMore.

(** ** Facts about the upload endpoint *)

Module UploadFacts.
Import Upload.

Section upload_facts.

Variable Response : Type.
Variable suffix_lower : string -> string.
Variable session_id : string.
Variable session_dir : string -> string + string.
Variable cleanup_session : string -> option string.
Variable open_wb : string -> option exc.
Variable f_write : Z -> option exc.
Variable process_audio_file : string -> string -> string -> outcome Response.

Local Abbreviation upload :=
  (upload_and_process Response suffix_lower session_id session_dir
     cleanup_session open_wb f_write process_audio_file).

Lemma cleanup_and_raise_status (status_code : Z) (log : list event) :
  match fst (cleanup_and_raise Response session_id cleanup_session
               status_code log) with
  | Return _ => False
  | Raised (HTTPException s) => s = status_code
  | Raised FileNotFoundError => False
  | Raised (OtherException _) => True
  end.
Proof.
  unfold cleanup_and_raise.
  now destruct (cleanup_session session_id).
Qed.

(** X29. Whatever the upload and whatever the collaborators do, the endpoint
    either returns the analysis or raises an [HTTPException] with status 400,
    404 or 500, or a file-system error of the session helpers; in
    particular it never answers 413, although the size check raises it. *)
Theorem upload_and_process_statuses
  (filename : string) (chunks : list Z) (device : string) :
  match fst (upload filename chunks device) with
  | Return _ => True
  | Raised (HTTPException s) => s = 400 \/ s = 404 \/ s = 500
  | Raised FileNotFoundError => False
  | Raised (OtherException _) => True
  end.
Proof.
  unfold upload_and_process.
  destruct (negb _); [simpl; auto|].
  destruct (session_dir session_id) as [sess_dir|cls]; [|exact I].
  destruct (try_body _ _ _ _ _ _ _ _ _) as [[r|e] log]; [exact I|].
  destruct e as [s| |cls].
  - pose proof (cleanup_and_raise_status 500 log) as H.
    destruct (fst (cleanup_and_raise _ _ _ 500 log)) as [r|[s'| |cls]]; auto.
  - pose proof (cleanup_and_raise_status 404 log) as H.
    destruct (fst (cleanup_and_raise _ _ _ 404 log)) as [r|[s'| |cls]]; auto.
  - pose proof (cleanup_and_raise_status 500 log) as H.
    destruct (fst (cleanup_and_raise _ _ _ 500 log)) as [r|[s'| |cls']]; auto.
Qed.

Lemma receive_oversized (chunks : list Z) (total : Z) :
  (forall size, f_write size = None) ->
  Forall (fun c => 0 <= c) chunks ->
  MAX_FILE_SIZE_MB * 1024 * 1024 < total + received_size chunks ->
  total <= MAX_FILE_SIZE_MB * 1024 * 1024 ->
  exists log,
    receive f_write chunks total = (Some (HTTPException 413), log) /\
    Forall is_write log /\
    total + written log <= MAX_FILE_SIZE_MB * 1024 * 1024.
Proof.
  intros Hwrite Hpos. revert total.
  induction Hpos as [|chunk rest Hc _ IH]; intros total Hover Htotal.
  - simpl in Hover. lia.
  - cbn [receive received_size] in *.
    destruct (Z.eqb_spec chunk 0) as [->|Hnz]; [lia|].
    destruct (Z.ltb_spec (MAX_FILE_SIZE_MB * 1024 * 1024) (total + chunk))
      as [Hbig|Hsmall].
    + exists []. split; [reflexivity|]. split; [constructor|]. simpl. lia.
    + rewrite Hwrite.
      destruct (IH (total + chunk)) as (log & Hrun & Hlog & Hsum); [lia..|].
      rewrite Hrun. exists (Write chunk :: log).
      split; [reflexivity|]. split; [now constructor|]. simpl. lia.
Qed.

(** X30. An upload with an accepted extension whose chunks add up to more
    than 100 MB, on a host where the session helpers, the file and its
    writes succeed, is answered with status 500: the 413 raised by the size
    check is caught by the endpoint's own [except Exception]. Nothing beyond
    the limit is written, the analysis is not run, and the session is
    cleaned up. *)
Theorem oversized_upload_answers_500
  (filename : string) (chunks : list Z) (device : string)
  (sess_dir : string) :
  existsb (String.eqb (suffix_lower filename)) ALLOWED_EXTENSIONS = true ->
  session_dir session_id = inl sess_dir ->
  open_wb (sess_dir +:+ "/" +:+ filename) = None ->
  (forall size, f_write size = None) ->
  cleanup_session session_id = None ->
  Forall (fun c => 0 <= c) chunks ->
  MAX_FILE_SIZE_MB * 1024 * 1024 < received_size chunks ->
  exists log,
    upload filename chunks device
    = (Raised (HTTPException 500), log ++ [Cleanup session_id]) /\
    Forall is_write log /\
    written log <= MAX_FILE_SIZE_MB * 1024 * 1024.
Proof.
  intros Hext Hdir Hopen Hwrite Hclean Hpos Hover.
  destruct (receive_oversized chunks 0 Hwrite Hpos)
    as (log & Hrun & Hlog & Hsum); [lia | unfold MAX_FILE_SIZE_MB; lia|].
  exists log. split; [|split; [exact Hlog | lia]].
  unfold upload_and_process. rewrite Hext. cbn [negb]. rewrite Hdir.
  unfold try_body. rewrite Hopen, Hrun.
  unfold cleanup_and_raise. now rewrite Hclean.
Qed.

End upload_facts.

Lemma oversized_upload_answers_500_witness :
  exists log,
    UploadExamples.upload "song.wav" UploadExamples.big_upload "cpu"
    = (Raised (HTTPException 500), log ++ [Cleanup "session-1"]) /\
    Forall is_write log /\
    written log <= MAX_FILE_SIZE_MB * 1024 * 1024.
Proof.
  apply (oversized_upload_answers_500 unit UploadExamples.suffix_lower
           "session-1" UploadExamples.session_dir
           UploadExamples.cleanup_session UploadExamples.open_wb
           UploadExamples.f_write UploadExamples.process_audio_file
           "song.wav" UploadExamples.big_upload "cpu"
           "/tmp/music-ai/sessions/session-1").
  - reflexivity.
  - reflexivity.
  - reflexivity.
  - reflexivity.
  - reflexivity.
  - unfold UploadExamples.big_upload. apply List.Forall_forall.
    intros c Hc. apply repeat_spec in Hc. subst c. lia.
  - vm_compute. reflexivity.
Defined.

End UploadFacts.
